(** * Pool matching, route ordering and cost allocation of the pooling service

    A shallow embedding of [src/services/poolingService.ts] and the
    properties its specification states about it.

    JavaScript numbers are idealised as real numbers: [Math.sin], [Math.cos],
    [Math.sqrt] and [Math.atan2] are the functions of the real line, and
    rounding, NaN and signed zeros are out of the model.  The two maps of the
    service are JavaScript [Map]s, whose iteration order is insertion order;
    they are association lists here, kept in insertion order. *)

From Stdlib Require Import Reals Lra Lia String ZArith Bool List.
From Stdlib Require Import Sorted Permutation.
From Equations Require Import Equations.
Import ListNotations.

Open Scope R_scope.

(** ** The part of [Math] the service uses *)

Module JsMath.

(** [Math.atan2(y, x)] on the reals. *)
Definition atan2 (y x : R) : R :=
  if Rlt_dec 0 x then atan (y / x)
  else if Rlt_dec x 0 then
    if Rle_dec 0 y then atan (y / x) + PI else atan (y / x) - PI
  else
    if Rlt_dec 0 y then PI / 2
    else if Rlt_dec y 0 then - (PI / 2)
    else 0.

(** Rounding towards zero, the quotient the [%] operator uses. *)
Definition trunc (r : R) : Z :=
  if Rle_dec 0 r then Int_part r else (- Int_part (- r))%Z.

(** [x % y]: the remainder has the sign of the dividend. *)
Definition rem (x y : R) : R := x - y * IZR (trunc (x / y)).

(** [Math.max] and [Math.abs]. *)
Definition max (a b : R) : R := Rmax a b.
Definition abs (a : R) : R := Rabs a.

End JsMath.

(** ** Data model *)

(** Any object with [lat] and [lng] fields; the argument type of
    [calculateDistance] and [calculateBearing]. *)
Record LatLng : Type := mkLatLng { lat : R; lng : R }.

(** The [pickup] and [dropoff] objects of a request. *)
Record Location : Type := mkLocation {
  loc_lat : R;
  loc_lng : R;
  loc_address : string
}.

Inductive StopType : Type := pickup_stop | dropoff_stop.

(** An element of a pool's [route].  [optimizeRoute] tags the points of a
    route of several requests with [type] and [requestId]; the points of a
    single-request route are the request's own [pickup] and [dropoff] and
    carry no tag. *)
Record RoutePoint : Type := mkRoutePoint {
  rp_lat : R;
  rp_lng : R;
  rp_address : string;
  rp_tag : option (StopType * string)
}.

Definition latlng_of_location (l : Location) : LatLng :=
  mkLatLng (loc_lat l) (loc_lng l).
Definition latlng_of_point (p : RoutePoint) : LatLng :=
  mkLatLng (rp_lat p) (rp_lng p).
Coercion latlng_of_location : Location >-> LatLng.
Coercion latlng_of_point : RoutePoint >-> LatLng.

(** A location used as a route point as it is ([[request.pickup, request.dropoff]]). *)
Definition point_of_location (l : Location) : RoutePoint :=
  mkRoutePoint (loc_lat l) (loc_lng l) (loc_address l) None.

(** [{ ...location, type, requestId }]. *)
Definition tagged_point (l : Location) (t : StopType) (rid : string) : RoutePoint :=
  mkRoutePoint (loc_lat l) (loc_lng l) (loc_address l) (Some (t, rid)).

Record PoolRequest : Type := mkPoolRequest {
  id : string;
  customerId : string;
  pickup : Location;
  dropoff : Location;
  packageWeight : R;
  maxWaitTime : R;
  createdAt : Z            (* [createdAt.getTime()], milliseconds *)
}.

Record PoolMatch : Type := mkPoolMatch {
  pool_id : string;
  requests : list PoolRequest;
  route : list RoutePoint;
  totalDistance : R;
  estimatedTime : R;
  costPerCustomer : R;
  savings : R
}.

(** ** Geometry primitives *)

(** Haversine distance, in kilometres. *)
Definition calculateDistance (point1 point2 : LatLng) : R :=
  let R0 := 6371 in
  let dLat := (lat point2 - lat point1) * PI / 180 in
  let dLng := (lng point2 - lng point1) * PI / 180 in
  let a := sin (dLat / 2) * sin (dLat / 2) +
           cos (lat point1 * PI / 180) * cos (lat point2 * PI / 180) *
           sin (dLng / 2) * sin (dLng / 2) in
  let c := 2 * JsMath.atan2 (sqrt a) (sqrt (1 - a)) in
  R0 * c.

(** The quantity [a] of [calculateDistance], of which the square roots are
    taken. *)
Definition haversineTerm (point1 point2 : LatLng) : R :=
  let dLat := (lat point2 - lat point1) * PI / 180 in
  let dLng := (lng point2 - lng point1) * PI / 180 in
  sin (dLat / 2) * sin (dLat / 2) +
  cos (lat point1 * PI / 180) * cos (lat point2 * PI / 180) *
  sin (dLng / 2) * sin (dLng / 2).

(** Initial bearing from [point1] to [point2], in degrees. *)
Definition calculateBearing (point1 point2 : LatLng) : R :=
  let lat1 := lat point1 * PI / 180 in
  let lat2 := lat point2 * PI / 180 in
  let deltaLng := (lng point2 - lng point1) * PI / 180 in
  let y := sin deltaLng * cos lat2 in
  let x := cos lat1 * sin lat2 - sin lat1 * cos lat2 * cos deltaLng in
  let bearing := JsMath.atan2 y x * 180 / PI in
  JsMath.rem (bearing + 360) 360.

(** ** JavaScript [Map]s with string keys

    Entries are kept in insertion order, which is the order [values()] and
    [entries()] iterate in.  [set] on a key already present replaces the value
    in place; [delete] removes the key. *)

Section JsMap.
Context {V : Type}.

Definition JsMap : Type := list (string * V).

Fixpoint map_get (k : string) (m : JsMap) : option V :=
  match m with
  | [] => None
  | (k', v) :: rest => if String.eqb k' k then Some v else map_get k rest
  end.

Fixpoint map_set (k : string) (v : V) (m : JsMap) : JsMap :=
  match m with
  | [] => [(k, v)]
  | (k', v') :: rest =>
      if String.eqb k' k then (k', v) :: rest else (k', v') :: map_set k v rest
  end.

Definition map_delete (k : string) (m : JsMap) : JsMap :=
  filter (fun e => negb (String.eqb (fst e) k)) m.

Definition map_values (m : JsMap) : list V := map snd m.

Definition map_keys (m : JsMap) : list string := map fst m.
End JsMap.
Arguments JsMap V : clear implicits.

(** A method either returns or throws; the state it leaves is kept apart. *)
Inductive Outcome (A : Type) : Type :=
| Returned (a : A)
| Thrown (message : string).
Arguments Returned {A} a.
Arguments Thrown {A} message.

(** [array.splice(i, 1)]: the array without its element at index [i]. *)
Definition removeAt {A : Type} (i : nat) (l : list A) : list A :=
  firstn i l ++ skipn (S i) l.

(** ** The service *)

Record PoolingService : Type := mkPoolingService {
  activeRequests : JsMap PoolRequest;
  pools : JsMap PoolMatch
}.

Definition emptyService : PoolingService := mkPoolingService [] [].

(** *** Scoring *)

Definition calculateDirectionSimilarity (req1 req2 : PoolRequest) : R :=
  let bearing1 := calculateBearing (pickup req1) (dropoff req1) in
  let bearing2 := calculateBearing (pickup req2) (dropoff req2) in
  let angleDiff := JsMath.abs (bearing1 - bearing2) in
  let angleDiff := if Rgt_dec angleDiff 180 then 360 - angleDiff else angleDiff in
  JsMath.max 0 (1 - angleDiff / 90).

(** The score one member of the pool contributes. *)
Definition requestScore (existingRequest request : PoolRequest) : R :=
  let pickupDistance := calculateDistance (pickup existingRequest) (pickup request) in
  let pickupScore := JsMath.max 0 (1 - pickupDistance / 5) in
  let dropoffDistance := calculateDistance (dropoff existingRequest) (dropoff request) in
  let dropoffScore := JsMath.max 0 (1 - dropoffDistance / 5) in
  let directionScore := calculateDirectionSimilarity existingRequest request in
  pickupScore * 0.3 + dropoffScore * 0.3 + directionScore * 0.4.

(** The [for ... of pool.requests] loop, on its two accumulators. *)
Definition compatibilityLoop (request : PoolRequest) (members : list PoolRequest)
    (init : R * nat) : R * nat :=
  fold_left
    (fun '(totalScore, comparisons) existingRequest =>
       (totalScore + requestScore existingRequest request, S comparisons))
    members init.

Definition calculateRouteCompatibility (pool : PoolMatch) (request : PoolRequest) : R :=
  let '(totalScore, comparisons) := compatibilityLoop request (requests pool) (0, 0%nat) in
  if (0 <? comparisons)%nat then totalScore / INR comparisons else 0.

Definition calculateAdditionalTime (pool : PoolMatch) (request : PoolRequest) : R :=
  let currentTime := estimatedTime pool in
  let additionalStops := 2 in
  let timePerStop := 5 in
  let routeDeviation := 10 in
  additionalStops * timePerStop + routeDeviation.

Definition calculatePoolCost (pool : PoolMatch) (request : PoolRequest) : R :=
  let baseFare := 50 in
  let totalDistance := totalDistance pool + 2 in
  let distanceCost := totalDistance * 10 in
  let totalCost := baseFare + distanceCost in
  totalCost / INR (length (requests pool) + 1).

(** *** Matching *)

(** The loop of [findMatchingPool] over [this.pools.values()], with the
    constant [maxWaitTimeMinutes] it closes over as an argument. *)
Fixpoint findMatchingPoolLoop (maxWaitTimeMinutes : R) (request : PoolRequest)
    (candidates : list PoolMatch) : option PoolMatch :=
  match candidates with
  | [] => None
  | pool :: rest =>
      if (3 <=? length (requests pool))%nat
      then findMatchingPoolLoop maxWaitTimeMinutes request rest
      else
        let additionalTime := calculateAdditionalTime pool request in
        if Rgt_dec additionalTime maxWaitTimeMinutes
        then findMatchingPoolLoop maxWaitTimeMinutes request rest
        else
          let routeScore := calculateRouteCompatibility pool request in
          if Rlt_dec routeScore 0.7
          then findMatchingPoolLoop maxWaitTimeMinutes request rest
          else
            let newCostPerCustomer := calculatePoolCost pool request in
            let currentCostPerCustomer := costPerCustomer pool in
            if Rlt_dec newCostPerCustomer (currentCostPerCustomer * 1.1)
            then Some pool
            else findMatchingPoolLoop maxWaitTimeMinutes request rest
  end.

Definition findMatchingPool (this : PoolingService) (request : PoolRequest)
    : option PoolMatch :=
  let maxDeviationKm := 2 in
  let maxWaitTimeMinutes := 15 in
  findMatchingPoolLoop maxWaitTimeMinutes request (map_values (pools this)).

(** *** Route optimizer *)

(** [[...requests].sort((a, b) => a.createdAt.getTime() - b.createdAt.getTime())].
    [Array.prototype.sort] is stable, and a stable sort has one possible
    result; it is computed here by insertion. *)
Fixpoint insertByCreatedAt (r : PoolRequest) (sorted : list PoolRequest)
    : list PoolRequest :=
  match sorted with
  | [] => [r]
  | x :: rest =>
      if (createdAt r <=? createdAt x)%Z then r :: x :: rest
      else x :: insertByCreatedAt r rest
  end.

Fixpoint sortByCreatedAt (rs : list PoolRequest) : list PoolRequest :=
  match rs with
  | [] => []
  | r :: rest => insertByCreatedAt r (sortByCreatedAt rest)
  end.

Definition pickupPoint (r : PoolRequest) : RoutePoint :=
  tagged_point (pickup r) pickup_stop (id r).
Definition dropoffPoint (r : PoolRequest) : RoutePoint :=
  tagged_point (dropoff r) dropoff_stop (id r).

(** The inner [for (let i = 1; ...)] loop: [others] are the elements from
    index [i] on. *)
Fixpoint nearestScan (currentLocation : LatLng) (others : list RoutePoint)
    (i nearestIndex : nat) (nearestDistance : R) : nat :=
  match others with
  | [] => nearestIndex
  | p :: rest =>
      let distance := calculateDistance currentLocation p in
      if Rlt_dec distance nearestDistance
      then nearestScan currentLocation rest (S i) i distance
      else nearestScan currentLocation rest (S i) nearestIndex nearestDistance
  end.

(** The [while (remainingDropoffs.length > 0)] loop.  [nearestIndex] is
    always an index of [remainingDropoffs], so [splice(nearestIndex, 1)[0]]
    is the element at that index. *)
Equations? visitDropoffs (currentLocation : RoutePoint)
    (remainingDropoffs allPoints : list RoutePoint) : list RoutePoint
    by wf (length remainingDropoffs) lt :=
  visitDropoffs currentLocation [] allPoints := allPoints;
  visitDropoffs currentLocation (first :: others) allPoints :=
    let nearestIndex :=
      nearestScan currentLocation others 1 0
        (calculateDistance currentLocation first) in
    let nearestDropoff := nth nearestIndex (first :: others) first in
    visitDropoffs nearestDropoff
      (removeAt nearestIndex (first :: others))
      (allPoints ++ [nearestDropoff]).
Proof.
  assert (Hscan : forall (c : LatLng) l i n d,
             (n < i)%nat -> (nearestScan c l i n d < i + length l)%nat).
  { induction l as [|p l IH]; intros i n d Hn; simpl.
    - lia.
    - destruct (Rlt_dec (calculateDistance c p) d).
      + specialize (IH (S i) i (calculateDistance c p)). lia.
      + specialize (IH (S i) n d). lia. }
  assert (Hlt : (nearestIndex < length (first :: others))%nat).
  { subst nearestIndex. simpl.
    specialize (Hscan currentLocation others 1%nat 0%nat
                  (calculateDistance currentLocation first)). lia. }
  unfold removeAt. rewrite length_app, length_firstn, length_skipn.
  simpl in *. lia.
Qed.

Definition optimizeRoute (requests : list PoolRequest) : list RoutePoint :=
  match requests with
  | [only] => [point_of_location (pickup only); point_of_location (dropoff only)]
  | _ =>
      let sortedRequests := sortByCreatedAt requests in
      let allPoints := map pickupPoint sortedRequests in
      let remainingDropoffs := map dropoffPoint requests in
      match rev allPoints with
      | [] => allPoints          (* no request: nothing to visit *)
      | currentLocation :: _ =>
          visitDropoffs currentLocation remainingDropoffs allPoints
      end
  end.

(** *** Distance, time, savings *)

Fixpoint totalDistanceLoop (totalDistance : R) (route : list RoutePoint) : R :=
  match route with
  | p :: ((q :: _) as rest) =>
      totalDistanceLoop (totalDistance + calculateDistance p q) rest
  | _ => totalDistance
  end.

Definition calculateTotalDistance (route : list RoutePoint) : R :=
  totalDistanceLoop 0 route.

Definition calculateEstimatedTime (route : list RoutePoint) (customerCount : nat) : R :=
  let distance := calculateTotalDistance route in
  let baseTime := distance * 2 in
  let stopTime := (INR customerCount * 2) * 5 in
  baseTime + stopTime.

Definition calculateSavings (pool : PoolMatch) : R :=
  if (length (requests pool) =? 1)%nat then 0
  else
    let totalIndividualCost :=
      fold_left
        (fun totalIndividualCost request =>
           let individualDistance :=
             calculateDistance (pickup request) (dropoff request) in
           let individualCost := 50 + individualDistance * 10 in
           totalIndividualCost + individualCost)
        (requests pool) 0 in
    let totalPoolCost := costPerCustomer pool * INR (length (requests pool)) in
    totalIndividualCost - totalPoolCost.

(** *** Operations on the registry *)

(** [addToExistingPool].  The pool object is mutated in place, so the pool
    the map holds at [poolId] changes with it. *)
Definition addToExistingPool (this : PoolingService) (poolId : string)
    (request : PoolRequest) : Outcome string * PoolingService :=
  match map_get poolId (pools this) with
  | None => (Thrown "Pool not found", this)
  | Some pool =>
      let requests' := requests pool ++ [request] in
      let route' := optimizeRoute requests' in
      let totalDistance' := calculateTotalDistance route' in
      let estimatedTime' := calculateEstimatedTime route' (length requests') in
      let pool1 :=
        mkPoolMatch (pool_id pool) requests' route' totalDistance' estimatedTime'
          (costPerCustomer pool) (savings pool) in
      let costPerCustomer' := calculatePoolCost pool1 request in
      let pool2 :=
        mkPoolMatch (pool_id pool) requests' route' totalDistance' estimatedTime'
          costPerCustomer' (savings pool) in
      let savings' := calculateSavings pool2 in
      let pool3 :=
        mkPoolMatch (pool_id pool) requests' route' totalDistance' estimatedTime'
          costPerCustomer' savings' in
      (Returned poolId,
       mkPoolingService (activeRequests this) (map_set poolId pool3 (pools this)))
  end.

(** [createNewPool].  [poolId] stands for the identifier the method builds
    from [Date.now()] and [Math.random()]. *)
Definition createNewPool (this : PoolingService) (poolId : string)
    (request : PoolRequest) : Outcome string * PoolingService :=
  let pool :=
    mkPoolMatch poolId [request]
      [point_of_location (pickup request); point_of_location (dropoff request)]
      (calculateDistance (pickup request) (dropoff request))
      30 100 0 in
  (Returned poolId,
   mkPoolingService (activeRequests this) (map_set poolId pool (pools this))).

(** [addPoolRequest]; [newPoolId] is the identifier [createNewPool] would draw. *)
Definition addPoolRequest (this : PoolingService) (newPoolId : string)
    (request : PoolRequest) : Outcome string * PoolingService :=
  let this1 :=
    mkPoolingService (map_set (id request) request (activeRequests this))
      (pools this) in
  match findMatchingPool this1 request with
  | Some matchingPool => addToExistingPool this1 (pool_id matchingPool) request
  | None => createNewPool this1 newPoolId request
  end.

Definition getPool (this : PoolingService) (poolId : string) : option PoolMatch :=
  map_get poolId (pools this).

Definition getActivePools (this : PoolingService) : list PoolMatch :=
  map_values (pools this).

(** [pool.requests.findIndex(r => r.id === requestId)]; [None] is [-1]. *)
Fixpoint findIndex (requestId : string) (rs : list PoolRequest) : option nat :=
  match rs with
  | [] => None
  | r :: rest =>
      if String.eqb (id r) requestId then Some 0%nat
      else option_map S (findIndex requestId rest)
  end.

(** The search of [removeFromPool] over [this.pools.entries()]: the first
    pool holding the request, with the request's index in it. *)
Fixpoint findPoolOf (requestId : string) (entries : JsMap PoolMatch)
    : option (string * PoolMatch * nat) :=
  match entries with
  | [] => None
  | (poolId, pool) :: rest =>
      match findIndex requestId (requests pool) with
      | Some requestIndex => Some (poolId, pool, requestIndex)
      | None => findPoolOf requestId rest
      end
  end.

Definition removeFromPool (this : PoolingService) (requestId : string)
    : PoolingService :=
  let activeRequests' := map_delete requestId (activeRequests this) in
  match findPoolOf requestId (pools this) with
  | None => mkPoolingService activeRequests' (pools this)
  | Some (poolId, pool, requestIndex) =>
      let requests' := removeAt requestIndex (requests pool) in
      if (length requests' =? 0)%nat
      then mkPoolingService activeRequests' (map_delete poolId (pools this))
      else
        let route' := optimizeRoute requests' in
        let totalDistance' := calculateTotalDistance route' in
        let estimatedTime' := calculateEstimatedTime route' (length requests') in
        let costPerCustomer' := totalDistance' * 10 / INR (length requests') in
        let pool1 :=
          mkPoolMatch (pool_id pool) requests' route' totalDistance' estimatedTime'
            costPerCustomer' (savings pool) in
        let savings' := calculateSavings pool1 in
        let pool2 :=
          mkPoolMatch (pool_id pool) requests' route' totalDistance' estimatedTime'
            costPerCustomer' savings' in
        mkPoolingService activeRequests' (map_set poolId pool2 (pools this))
  end.

(** *** Runs of the public operations *)

Inductive Operation : Type :=
| AddRequest (newPoolId : string) (request : PoolRequest)
| RemoveRequest (requestId : string).

Definition perform (this : PoolingService) (op : Operation) : PoolingService :=
  match op with
  | AddRequest newPoolId request => snd (addPoolRequest this newPoolId request)
  | RemoveRequest requestId => removeFromPool this requestId
  end.

Definition performAll (ops : list Operation) (this : PoolingService)
    : PoolingService :=
  fold_left perform ops this.

(** The states the service can be in: those a run from the fresh service
    reaches. *)
Definition reachable (this : PoolingService) : Prop :=
  exists ops, this = performAll ops emptyService.

(** The order of the FIFO policy on requests. *)
Definition createdNoLater (a b : PoolRequest) : Prop :=
  (createdAt a <= createdAt b)%Z.

(** ** What the specification says, in its own words *)

Module Spec.

(** Valid coordinates: latitude within [-90, 90], longitude within [-180, 180]. *)
Definition validLatLng (p : LatLng) : Prop :=
  -90 <= lat p <= 90 /\ -180 <= lng p <= 180.

Definition validRequest (r : PoolRequest) : Prop :=
  validLatLng (pickup r) /\ validLatLng (dropoff r).

(** "Take the absolute angular difference, normalized to <= 180 degrees by
    wrapping; similarity = max(0, 1 - angleDiff / 90)". *)
Definition directionSimilarity (member candidate : PoolRequest) : R :=
  let difference :=
    Rabs (calculateBearing (pickup member) (dropoff member) -
          calculateBearing (pickup candidate) (dropoff candidate)) in
  Rmax 0 (1 - Rmin difference (360 - difference) / 90).

(** "max(0, 1 - distance / 5) -- zero beyond 5 km". *)
Definition proximity (a b : LatLng) : R :=
  Rmax 0 (1 - calculateDistance a b / 5).

(** "Per-member composite = 0.30 * pickupScore + 0.30 * dropoffScore +
    0.40 * directionScore". *)
Definition composite (member candidate : PoolRequest) : R :=
  0.30 * proximity (pickup member) (pickup candidate) +
  0.30 * proximity (dropoff member) (dropoff candidate) +
  0.40 * directionSimilarity member candidate.

Fixpoint sumComposite (members : list PoolRequest) (candidate : PoolRequest) : R :=
  match members with
  | [] => 0
  | member :: rest => composite member candidate + sumComposite rest candidate
  end.

(** "The arithmetic mean of per-member composites across all current members". *)
Definition score (members : list PoolRequest) (candidate : PoolRequest) : R :=
  sumComposite members candidate / INR (length members).

(** "Pickups are visited first, ordered by ascending request creation
    time": the pickups of the requests, each once, earliest first. *)
Definition pickupsFifo (requests : list PoolRequest) (stops : list RoutePoint)
    : Prop :=
  exists order,
    Permutation requests order /\
    StronglySorted createdNoLater order /\
    stops = map pickupPoint order.

(** "At each step choose the not-yet-visited dropoff with minimum distance
    from the current location, appending it and advancing the current
    location to that dropoff"; "first occurrence at minimum distance wins". *)
Inductive nearestNeighbour
    : RoutePoint -> list RoutePoint -> list RoutePoint -> Prop :=
| nn_done : forall current, nearestNeighbour current [] []
| nn_visit : forall (current : RoutePoint) remaining i (chosen : RoutePoint) visited,
    nth_error remaining i = Some chosen ->
    (forall j (p : RoutePoint), nth_error remaining j = Some p ->
       calculateDistance current chosen <= calculateDistance current p) ->
    (forall j (p : RoutePoint), (j < i)%nat -> nth_error remaining j = Some p ->
       calculateDistance current chosen < calculateDistance current p) ->
    nearestNeighbour chosen (removeAt i remaining) visited ->
    nearestNeighbour current remaining (chosen :: visited).

(** "Sum of consecutive-stop distances along the optimized route". *)
Fixpoint routeLength (route : list RoutePoint) : R :=
  match route with
  | p :: ((q :: _) as rest) => calculateDistance p q + routeLength rest
  | _ => 0
  end.

(** The solo cost of a member: base fare plus its own distance. *)
Definition soloCost (r : PoolRequest) : R :=
  50 + calculateDistance (pickup r) (dropoff r) * 10.

Fixpoint sumSoloCost (members : list PoolRequest) : R :=
  match members with
  | [] => 0
  | r :: rest => soloCost r + sumSoloCost rest
  end.

Record Allocation : Type := mkAllocation {
  alloc_totalDistance : R;
  alloc_estimatedTime : R;
  alloc_costPerCustomer : R;
  alloc_savings : R
}.

(** The cost allocator of the specification, from a pool's members. *)
Definition allocate (members : list PoolRequest) : Allocation :=
  let memberCount := INR (length members) in
  let distance := routeLength (optimizeRoute members) in
  let cost := (50 + distance * 10) / memberCount in
  mkAllocation
    distance
    (distance * 2 + (2 * memberCount) * 5)
    cost
    (match members with
     | [_] => 0
     | _ => sumSoloCost members - cost * memberCount
     end).

(** A pool whose distance, time and cost are the allocator's. *)
Definition consistent (pool : PoolMatch) : Prop :=
  totalDistance pool = alloc_totalDistance (allocate (requests pool)) /\
  estimatedTime pool = alloc_estimatedTime (allocate (requests pool)) /\
  costPerCustomer pool = alloc_costPerCustomer (allocate (requests pool)).

End Spec.

(** ** Invariants of the registry *)

(** A property of every membership list of the registry. *)
Definition everyPool (P : list PoolRequest -> Prop) (this : PoolingService) : Prop :=
  forall poolId pool, In (poolId, pool) (pools this) -> P (requests pool).

(** Between one and three requests. *)
Definition withinCapacity (rs : list PoolRequest) : Prop :=
  (1 <= length rs <= 3)%nat.

(** Every pool holds between one and three requests. *)
Definition capacityInvariant (this : PoolingService) : Prop :=
  everyPool withinCapacity this.

(** No pool of the registry is empty. *)
Definition noEmptyPool (this : PoolingService) : Prop :=
  everyPool (fun rs => rs <> []) this.

(** The registry is a map: no key occurs twice. *)
Definition uniquePoolIds (this : PoolingService) : Prop :=
  NoDup (map_keys (pools this)).

(** Identifiers of the requests held by the pools, in iteration order. *)
Definition pooledRequestIds (this : PoolingService) : list string :=
  flat_map (fun e => map id (requests (snd e))) (pools this).

(** A request identifier names one request ("Identity: unique id"). *)
Definition uniqueRequestIds (this : PoolingService) : Prop :=
  NoDup (pooledRequestIds this).

(** The request identifier occurs in no pool. *)
Definition unknownRequest (this : PoolingService) (requestId : string) : Prop :=
  forall poolId pool, In (poolId, pool) (pools this) ->
    ~ In requestId (map id (requests pool)).

(** The pool at [poolId] is the only pool that holds a request with this
    identifier. *)
Definition heldOnlyBy (this : PoolingService) (requestId poolId : string)
    (pool : PoolMatch) : Prop :=
  forall k p, In (k, p) (pools this) ->
    In requestId (map id (requests p)) -> k = poolId /\ p = pool.

(** ** The helper that builds a request from the delivery form *)

(** The fields [createPoolRequest] reads of the form, which the source types
    [any]; [None] is a field the form lacks. *)
Record DeliveryForm : Type := mkDeliveryForm {
  form_customerId : option string;
  form_pickupAddress : string;
  form_dropoffAddress : string;
  form_weight : option R
}.

(** [value || fallback] on strings and on numbers: the empty string, zero and
    [undefined] are falsy. *)
Definition stringOr (value : option string) (fallback : string) : string :=
  match value with
  | Some s => if String.eqb s "" then fallback else s
  | None => fallback
  end.

Definition numberOr (value : option R) (fallback : R) : R :=
  match value with
  | Some x => if Req_dec_T x 0 then fallback else x
  | None => fallback
  end.

(** [createPoolRequest].  [requestId] stands for the identifier built from
    [Date.now()] and [Math.random()], [now] for [new Date()], and [random1]
    to [random4] for the four draws of [Math.random()] behind the mock
    coordinates, in the order the object literal makes them. *)
Definition createPoolRequest (deliveryForm : DeliveryForm) (requestId : string)
    (now : Z) (random1 random2 random3 random4 : R) : PoolRequest :=
  mkPoolRequest
    requestId
    (stringOr (form_customerId deliveryForm) "demo_customer")
    (mkLocation (19.0760 + (random1 - 0.5) * 0.1)
                (72.8777 + (random2 - 0.5) * 0.1)
                (form_pickupAddress deliveryForm))
    (mkLocation (19.0760 + (random3 - 0.5) * 0.1)
                (72.8777 + (random4 - 0.5) * 0.1)
                (form_dropoffAddress deliveryForm))
    (numberOr (form_weight deliveryForm) 1)
    30
    now.

(** A value [Math.random()] can return. *)
Definition randomDraw (x : R) : Prop := 0 <= x < 1.

(** ** Further notions used in the properties *)

(** Two points at the same coordinates. *)
Definition sameCoordinates (a b : LatLng) : Prop :=
  lat a = lat b /\ lng a = lng b.

(** Two requests between the same two places. *)
Definition sameTrip (a b : PoolRequest) : Prop :=
  sameCoordinates (pickup a) (pickup b) /\
  sameCoordinates (dropoff a) (dropoff b).

(** The direction of travel of a request, in degrees. *)
Definition heading (r : PoolRequest) : R :=
  calculateBearing (pickup r) (dropoff r).

(** A pool as [createNewPool] builds it under the key [poolId]. *)
Definition asCreated (poolId : string) (pool : PoolMatch) : Prop :=
  exists request,
    pool =
    mkPoolMatch poolId [request]
      [point_of_location (pickup request); point_of_location (dropoff request)]
      (calculateDistance (pickup request) (dropoff request)) 30 100 0.

(** The number of requests the pools hold. *)
Definition pooledCount (this : PoolingService) : nat :=
  length (pooledRequestIds this).

(** ** The scenarios of the specification *)

Module Scenario.

Definition pickupA : Location := mkLocation 19.0760 72.8777 "pickup A".
Definition dropoffA : Location := mkLocation 19.0896 72.8656 "dropoff A".

(** Scenario A: a single request. *)
Definition request1 : PoolRequest :=
  mkPoolRequest "req_1" "customer_1" pickupA dropoffA 1 30 1000.

(** Scenario B: a second request from and to the same two places, hence
    within 1 km of the first at both ends and on the same bearing. *)
Definition request2 : PoolRequest :=
  mkPoolRequest "req_2" "customer_2" pickupA dropoffA 1 30 2000.

Definition request3 : PoolRequest :=
  mkPoolRequest "req_3" "customer_3" pickupA dropoffA 1 30 3000.

Definition request4 : PoolRequest :=
  mkPoolRequest "req_4" "customer_4" pickupA dropoffA 1 30 4000.

(** The registry after the first request. *)
Definition afterRequest1 : PoolingService :=
  snd (addPoolRequest emptyService "pool_1" request1).

(** A registry whose only pool is full: [addToExistingPool] has put the
    second and the third request into the pool of the first. *)
Definition onePoolOfTwo : PoolingService :=
  snd (addToExistingPool afterRequest1 "pool_1" request2).
Definition onePoolOfThree : PoolingService :=
  snd (addToExistingPool onePoolOfTwo "pool_1" request3).

End Scenario.

(** ** Further trips, for the properties of the scorer *)

Module Trips.

(** Two places on the meridian of scenario A. *)
Definition south : Location := mkLocation 19.0760 72.8777 "south".
Definition north : Location := mkLocation 19.0896 72.8777 "north".

Definition northbound : PoolRequest :=
  mkPoolRequest "req_n" "customer_n" south north 1 30 1000.
Definition southbound : PoolRequest :=
  mkPoolRequest "req_s" "customer_s" north south 1 30 2000.

(** Two places on the equator, half a turn apart. *)
Definition greenwich : Location := mkLocation 0 0 "0E".
Definition dateline : Location := mkLocation 0 180 "180E".

Definition eastward : PoolRequest :=
  mkPoolRequest "req_e" "customer_e" greenwich dateline 1 30 1000.
Definition westward : PoolRequest :=
  mkPoolRequest "req_w" "customer_w" dateline greenwich 1 30 2000.

(** A form without customer and weight. *)
Definition bareForm : DeliveryForm := mkDeliveryForm None "from" "to" None.

End Trips.

(** * Properties *)

(** ** The mathematical functions *)

Lemma atan_nonneg (x : R) : 0 <= x -> 0 <= atan x.
Proof.
  intros [Hx | <-].
  - left. rewrite <- atan_0. now apply atan_increasing.
  - rewrite atan_0. lra.
Qed.

Lemma atan_nonpos (x : R) : x <= 0 -> atan x <= 0.
Proof.
  intros [Hx | ->].
  - left. rewrite <- atan_0. now apply atan_increasing.
  - rewrite atan_0. lra.
Qed.

Lemma div_nonneg (y x : R) : 0 <= y -> 0 < x -> 0 <= y / x.
Proof.
  intros Hy Hx. unfold Rdiv. apply Rmult_le_pos; [assumption|].
  left. now apply Rinv_0_lt_compat.
Qed.

Lemma div_neg_nonpos (y x : R) : 0 <= y -> x < 0 -> y / x <= 0.
Proof.
  intros Hy Hx. unfold Rdiv.
  assert (/ x < 0) by now apply Rinv_lt_0_compat. nra.
Qed.

Lemma div_neg_neg (y x : R) : y < 0 -> x < 0 -> 0 <= y / x.
Proof.
  intros Hy Hx. unfold Rdiv.
  assert (/ x < 0) by now apply Rinv_lt_0_compat. nra.
Qed.

(** [atan2] of two non-negative numbers lies in the first quadrant. *)
Lemma atan2_first_quadrant (y x : R) :
  0 <= y -> 0 <= x -> 0 <= JsMath.atan2 y x <= PI / 2.
Proof.
  intros Hy Hx. unfold JsMath.atan2. pose proof PI_RGT_0 as Hpi.
  destruct (Rlt_dec 0 x) as [Hpos | Hnpos].
  - split.
    + apply atan_nonneg, div_nonneg; assumption.
    + left. apply atan_bound.
  - destruct (Rlt_dec x 0); [lra|].
    destruct (Rlt_dec 0 y); [lra|].
    destruct (Rlt_dec y 0); lra.
Qed.

(** [atan2] takes its values in [[-PI, PI]]. *)
Lemma atan2_range (y x : R) : - PI <= JsMath.atan2 y x <= PI.
Proof.
  unfold JsMath.atan2. pose proof PI_RGT_0 as Hpi.
  pose proof (atan_bound (y / x)) as Hb.
  destruct (Rlt_dec 0 x).
  - lra.
  - destruct (Rlt_dec x 0) as [Hneg | ].
    + destruct (Rle_dec 0 y) as [Hy | Hy].
      * pose proof (atan_nonpos _ (div_neg_nonpos y x Hy Hneg)). lra.
      * assert (y < 0) as Hy' by lra.
        pose proof (atan_nonneg _ (div_neg_neg y x Hy' Hneg)). lra.
    + destruct (Rlt_dec 0 y); [lra|]. destruct (Rlt_dec y 0); lra.
Qed.

(** The remainder of a non-negative dividend by a positive divisor. *)
Lemma rem_range (x y : R) : 0 <= x -> 0 < y -> 0 <= JsMath.rem x y < y.
Proof.
  intros Hx Hy. unfold JsMath.rem, JsMath.trunc.
  assert (Hq : 0 <= x / y) by (apply div_nonneg; assumption).
  destruct (Rle_dec 0 (x / y)); [|contradiction].
  destruct (base_Int_part (x / y)) as [Hlo Hhi].
  assert (Hxy : x = y * (x / y)) by (field; lra).
  set (k := IZR (Int_part (x / y))) in *.
  set (q := x / y) in *.
  split; nra.
Qed.

Lemma max0_range (v : R) : v <= 1 -> 0 <= JsMath.max 0 v <= 1.
Proof.
  intros Hv. unfold JsMath.max. split.
  - apply Rmax_l.
  - apply Rmax_lub; lra.
Qed.

(** ** Geometry *)

Lemma calculateDistance_nonneg (p q : LatLng) : 0 <= calculateDistance p q.
Proof.
  unfold calculateDistance. cbv zeta.
  match goal with
  | |- context [JsMath.atan2 ?y ?x] =>
      pose proof (atan2_first_quadrant y x (sqrt_pos _) (sqrt_pos _)) as H
  end.
  lra.
Qed.

(** The distance between two points with the same coordinates is zero. *)
Lemma calculateDistance_same (p q : LatLng) :
  lat p = lat q -> lng p = lng q -> calculateDistance p q = 0.
Proof.
  intros Hlat Hlng. unfold calculateDistance. cbv zeta.
  rewrite Hlat, Hlng.
  replace ((lat q - lat q) * PI / 180 / 2) with 0 by lra.
  replace ((lng q - lng q) * PI / 180 / 2) with 0 by lra.
  rewrite sin_0.
  replace (0 * 0 + cos (lat q * PI / 180) * cos (lat q * PI / 180) * 0 * 0)
    with 0 by ring.
  rewrite Rminus_0_r, sqrt_0, sqrt_1.
  unfold JsMath.atan2.
  destruct (Rlt_dec 0 1); [|lra].
  unfold Rdiv. rewrite Rmult_0_l, atan_0. ring.
Qed.

Lemma calculateDistance_haversineTerm (p q : LatLng) :
  calculateDistance p q =
  6371 * (2 * JsMath.atan2 (sqrt (haversineTerm p q)) (sqrt (1 - haversineTerm p q))).
Proof. reflexivity. Qed.

(** Between points of valid coordinates both square roots of the distance
    are those of numbers within [[0, 1]]. *)
Lemma haversineTerm_range (p q : LatLng) :
  Spec.validLatLng p -> Spec.validLatLng q -> 0 <= haversineTerm p q <= 1.
Proof.
  intros [Hp _] [Hq _]. unfold haversineTerm. cbv zeta.
  pose proof PI_RGT_0 as Hpi.
  set (v := (lng q - lng p) * PI / 180 / 2).
  set (p1 := lat p * PI / 180). set (p2 := lat q * PI / 180).
  assert (Hp1 : - (PI / 2) <= p1 <= PI / 2) by (unfold p1; split; nra).
  assert (Hp2 : - (PI / 2) <= p2 <= PI / 2) by (unfold p2; split; nra).
  assert (Hc1 : 0 <= cos p1) by (apply cos_ge_0; lra).
  assert (Hc2 : 0 <= cos p2) by (apply cos_ge_0; lra).
  replace ((lat q - lat p) * PI / 180 / 2) with ((p2 - p1) / 2)
    by (unfold p1, p2; lra).
  set (u := (p2 - p1) / 2).
  assert (Hcos : cos (p2 - p1) = 1 - 2 * sin u * sin u).
  { replace (p2 - p1) with (2 * u) by (unfold u; lra). apply cos_2a_sin. }
  rewrite cos_minus in Hcos.
  pose proof (COS_bound (p2 + p1)) as [_ Hsum]. rewrite cos_plus in Hsum.
  pose proof (SIN_bound v) as [Hs1 Hs2].
  assert (Hsv : 0 <= sin v * sin v <= 1) by nra.
  assert (Hcc : 0 <= cos p1 * cos p2) by nra.
  split.
  - assert (0 <= sin u * sin u) by nra. nra.
  - nra.
Qed.

Lemma calculateBearing_range (p q : LatLng) : 0 <= calculateBearing p q < 360.
Proof.
  unfold calculateBearing. cbv zeta.
  apply rem_range; [|lra].
  match goal with
  | |- context [JsMath.atan2 ?y ?x] => pose proof (atan2_range y x) as H
  end.
  pose proof PI_RGT_0 as Hpi.
  set (t := JsMath.atan2 _ _) in *.
  assert (Ht : -180 <= t * 180 / PI).
  { unfold Rdiv. apply Rmult_le_reg_r with PI; [assumption|].
    rewrite Rmult_assoc, Rinv_l by lra. lra. }
  lra.
Qed.

(** ** Compatibility scorer *)

Lemma calculateDirectionSimilarity_range (req1 req2 : PoolRequest) :
  0 <= calculateDirectionSimilarity req1 req2 <= 1.
Proof.
  unfold calculateDirectionSimilarity. cbv zeta. apply max0_range.
  pose proof (calculateBearing_range (pickup req1) (dropoff req1)) as H1.
  pose proof (calculateBearing_range (pickup req2) (dropoff req2)) as H2.
  set (b1 := calculateBearing _ _) in *.
  set (b2 := calculateBearing (pickup req2) _) in *.
  unfold JsMath.abs.
  assert (Habs : 0 <= Rabs (b1 - b2) < 360).
  { split; [apply Rabs_pos|]. apply Rabs_def1; lra. }
  destruct (Rgt_dec (Rabs (b1 - b2)) 180); lra.
Qed.

Lemma requestScore_range (existingRequest request : PoolRequest) :
  0 <= requestScore existingRequest request <= 1.
Proof.
  unfold requestScore. cbv zeta.
  pose proof (calculateDistance_nonneg (pickup existingRequest) (pickup request)) as Hp.
  pose proof (calculateDistance_nonneg (dropoff existingRequest) (dropoff request)) as Hd.
  pose proof (calculateDirectionSimilarity_range existingRequest request) as Hdir.
  assert (Hps := max0_range (1 - calculateDistance (pickup existingRequest) (pickup request) / 5)).
  assert (Hds := max0_range (1 - calculateDistance (dropoff existingRequest) (dropoff request) / 5)).
  lra.
Qed.

(** The code's per-member score is the composite of the specification. *)
Lemma requestScore_composite (existingRequest request : PoolRequest) :
  requestScore existingRequest request = Spec.composite existingRequest request.
Proof.
  unfold requestScore, Spec.composite, Spec.proximity, JsMath.max. cbv zeta.
  assert (Hdir : calculateDirectionSimilarity existingRequest request =
                 Spec.directionSimilarity existingRequest request).
  { unfold calculateDirectionSimilarity, Spec.directionSimilarity,
      JsMath.max, JsMath.abs. cbv zeta.
    set (d := Rabs _). f_equal. f_equal. f_equal.
    destruct (Rgt_dec d 180).
    - rewrite Rmin_right; lra.
    - rewrite Rmin_left; lra. }
  rewrite Hdir. lra.
Qed.

(** The loop counts the members and adds up their scores. *)
Lemma compatibilityLoop_spec (request : PoolRequest) (members : list PoolRequest) :
  forall totalScore comparisons,
    compatibilityLoop request members (totalScore, comparisons) =
    (totalScore + Spec.sumComposite members request,
     (comparisons + length members)%nat).
Proof.
  unfold compatibilityLoop.
  induction members as [|m members IH]; intros totalScore comparisons;
    cbn [fold_left length Spec.sumComposite].
  - f_equal; [lra | lia].
  - rewrite IH, requestScore_composite. f_equal; [lra | lia].
Qed.

Lemma sumComposite_range (members : list PoolRequest) (request : PoolRequest) :
  0 <= Spec.sumComposite members request <= INR (length members).
Proof.
  induction members as [|m members IH]; cbn [Spec.sumComposite length].
  - simpl. lra.
  - pose proof (requestScore_range m request) as Hm.
    rewrite requestScore_composite in Hm. rewrite S_INR. lra.
Qed.

(** On a pool with members the score is the mean of the specification. *)
Lemma calculateRouteCompatibility_mean (pool : PoolMatch) (request : PoolRequest) :
  requests pool <> [] ->
  calculateRouteCompatibility pool request = Spec.score (requests pool) request.
Proof.
  intros Hne. unfold calculateRouteCompatibility, Spec.score.
  rewrite compatibilityLoop_spec.
  destruct (requests pool) as [|m members]; [contradiction|].
  cbn [length Nat.add Nat.ltb Nat.leb]. now rewrite Rplus_0_l.
Qed.

(** The score lies within [[0, 1]] whatever the pool. *)
Lemma calculateRouteCompatibility_range (pool : PoolMatch) (request : PoolRequest) :
  0 <= calculateRouteCompatibility pool request <= 1.
Proof.
  unfold calculateRouteCompatibility. rewrite compatibilityLoop_spec.
  pose proof (sumComposite_range (requests pool) request) as Hs.
  rewrite Rplus_0_l. cbn [Nat.add].
  destruct (0 <? length (requests pool))%nat eqn:Hpos; [|lra].
  apply Nat.ltb_lt in Hpos.
  assert (Hn : 0 < INR (length (requests pool))) by (apply lt_0_INR; assumption).
  split.
  - apply div_nonneg; lra.
  - apply Rmult_le_reg_r with (INR (length (requests pool))); [assumption|].
    unfold Rdiv. rewrite Rmult_assoc, Rinv_l by lra. lra.
Qed.

(** C10.  Scoring a pool that has no member returns exactly 0: the guard on
    the number of comparisons keeps the mean from dividing by zero. *)
Theorem score_of_empty_pool (pool : PoolMatch) (candidate : PoolRequest) :
  requests pool = [] ->
  calculateRouteCompatibility pool candidate = 0.
Proof.
  intros Hempty. unfold calculateRouteCompatibility. rewrite Hempty.
  reflexivity.
Qed.

(** ** Route optimizer *)

Section Sorting.

Lemma insertByCreatedAt_perm (r : PoolRequest) (l : list PoolRequest) :
  Permutation (r :: l) (insertByCreatedAt r l).
Proof.
  induction l as [|x l IH]; simpl.
  - apply Permutation_refl.
  - destruct (createdAt r <=? createdAt x)%Z.
    + apply Permutation_refl.
    + eapply perm_trans; [apply perm_swap|]. now apply perm_skip.
Qed.

Lemma sortByCreatedAt_perm (l : list PoolRequest) :
  Permutation l (sortByCreatedAt l).
Proof.
  induction l as [|x l IH]; simpl.
  - apply perm_nil.
  - eapply perm_trans; [|apply insertByCreatedAt_perm]. now apply perm_skip.
Qed.

Lemma insertByCreatedAt_sorted (r : PoolRequest) (l : list PoolRequest) :
  StronglySorted createdNoLater l -> StronglySorted createdNoLater (insertByCreatedAt r l).
Proof.
  induction 1 as [|x l Hsorted IH Hall]; simpl.
  - constructor; constructor.
  - destruct (createdAt r <=? createdAt x)%Z eqn:Hle.
    + apply Z.leb_le in Hle. constructor.
      * now constructor.
      * constructor; [exact Hle|].
        eapply Forall_impl; [|exact Hall].
        intros y Hy. unfold createdNoLater in *. lia.
    + apply Z.leb_gt in Hle. constructor; [exact IH|].
      eapply Permutation_Forall; [apply insertByCreatedAt_perm|].
      constructor; [unfold createdNoLater; lia | exact Hall].
Qed.

Lemma sortByCreatedAt_sorted (l : list PoolRequest) :
  StronglySorted createdNoLater (sortByCreatedAt l).
Proof.
  induction l as [|x l IH]; simpl.
  - constructor.
  - now apply insertByCreatedAt_sorted.
Qed.

End Sorting.

Lemma sortByCreatedAt_fifo (requests : list PoolRequest) :
  Spec.pickupsFifo requests (map pickupPoint (sortByCreatedAt requests)).
Proof.
  exists (sortByCreatedAt requests). split; [|split].
  - apply sortByCreatedAt_perm.
  - apply sortByCreatedAt_sorted.
  - reflexivity.
Qed.

(** The scan keeps the first index at which the least distance occurs. *)
Lemma nearestScan_spec (current : RoutePoint) (others : list RoutePoint) :
  forall (seen : list RoutePoint) (nearestIndex : nat) (nearest : RoutePoint),
    nth_error seen nearestIndex = Some nearest ->
    (forall j (p : RoutePoint), nth_error seen j = Some p ->
       calculateDistance current nearest <= calculateDistance current p) ->
    (forall j (p : RoutePoint), (j < nearestIndex)%nat -> nth_error seen j = Some p ->
       calculateDistance current nearest < calculateDistance current p) ->
    exists chosen : RoutePoint,
      nth_error (seen ++ others)
        (nearestScan current others (length seen) nearestIndex
           (calculateDistance current nearest)) = Some chosen /\
      (forall j (p : RoutePoint), nth_error (seen ++ others) j = Some p ->
         calculateDistance current chosen <= calculateDistance current p) /\
      (forall j (p : RoutePoint),
         (j < nearestScan current others (length seen) nearestIndex
                (calculateDistance current nearest))%nat ->
         nth_error (seen ++ others) j = Some p ->
         calculateDistance current chosen < calculateDistance current p).
Proof.
  induction others as [|q others IH]; intros seen nearestIndex nearest Hnth Hmin Hfirst.
  - simpl. rewrite app_nil_r. exists nearest. auto.
  - assert (Hin : (nearestIndex < length seen)%nat).
    { apply nth_error_Some. rewrite Hnth. discriminate. }
    assert (Hlen : length (seen ++ [q]) = S (length seen)).
    { rewrite length_app. simpl. lia. }
    cbn [nearestScan].
    replace (seen ++ q :: others) with ((seen ++ [q]) ++ others)
      by (rewrite <- app_assoc; reflexivity).
    rewrite <- Hlen.
    destruct (Rlt_dec (calculateDistance current q)
                (calculateDistance current nearest)) as [Hcloser | Hnot].
    + apply IH.
      * rewrite nth_error_app2 by lia. now rewrite Nat.sub_diag.
      * intros j p Hj.
        destruct (Nat.lt_ge_cases j (length seen)) as [Hlt | Hge].
        -- rewrite nth_error_app1 in Hj by assumption.
           specialize (Hmin j p Hj). lra.
        -- rewrite nth_error_app2 in Hj by assumption.
           destruct (j - length seen)%nat as [|k]; simpl in Hj.
           ++ injection Hj as <-. lra.
           ++ destruct k; discriminate.
      * intros j p Hlt Hj.
        rewrite nth_error_app1 in Hj by assumption.
        specialize (Hmin j p Hj). lra.
    + apply IH.
      * now rewrite nth_error_app1.
      * intros j p Hj.
        destruct (Nat.lt_ge_cases j (length seen)) as [Hlt | Hge].
        -- rewrite nth_error_app1 in Hj by assumption. now apply (Hmin j).
        -- rewrite nth_error_app2 in Hj by assumption.
           destruct (j - length seen)%nat as [|k]; simpl in Hj.
           ++ injection Hj as <-. lra.
           ++ destruct k; discriminate.
      * intros j p Hlt Hj.
        rewrite nth_error_app1 in Hj by lia. now apply (Hfirst j).
Qed.

Lemma removeAt_length {A : Type} (i : nat) (l : list A) :
  (i < length l)%nat -> length l = S (length (removeAt i l)).
Proof.
  intros Hi. unfold removeAt.
  rewrite length_app, length_firstn, length_skipn. lia.
Qed.

(** The loop appends the remaining dropoffs nearest first. *)
Lemma visitDropoffs_spec (n : nat) :
  forall (currentLocation : RoutePoint) (remainingDropoffs allPoints : list RoutePoint),
    length remainingDropoffs = n ->
    exists visited,
      visitDropoffs currentLocation remainingDropoffs allPoints = allPoints ++ visited /\
      Spec.nearestNeighbour currentLocation remainingDropoffs visited.
Proof.
  induction n as [|n IH]; intros current remaining allPoints Hlen.
  - destruct remaining; [|discriminate].
    exists []. simp visitDropoffs. rewrite app_nil_r. split; [reflexivity|constructor].
  - destruct remaining as [|first others]; [discriminate|].
    simp visitDropoffs. cbv zeta.
    destruct (nearestScan_spec current others [first] 0%nat first eq_refl)
      as (chosen & Hnth & Hmin & Hfirst).
    { intros [|[|j]] p Hj; simpl in Hj; try discriminate.
      injection Hj as <-. lra. }
    { intros j p Hlt. lia. }
    cbn [length app] in Hnth, Hmin, Hfirst.
    set (nearestIndex := nearestScan current others 1 0
                           (calculateDistance current first)) in *.
    assert (Hidx : (nearestIndex < length (first :: others))%nat).
    { apply nth_error_Some. rewrite Hnth. discriminate. }
    rewrite (nth_error_nth _ _ first Hnth).
    destruct (IH chosen (removeAt nearestIndex (first :: others))
                (allPoints ++ [chosen])) as (visited & Heq & Hnn).
    { pose proof (removeAt_length nearestIndex (first :: others) Hidx). lia. }
    exists (chosen :: visited). split.
    + rewrite Heq, <- app_assoc. reflexivity.
    + econstructor; eassumption.
Qed.

Lemma removeAt_perm {A : Type} (l : list A) :
  forall i x, nth_error l i = Some x -> Permutation l (x :: removeAt i l).
Proof.
  induction l as [|y l IH]; intros [|i] x Hnth; simpl in Hnth; try discriminate.
  - injection Hnth as ->. apply Permutation_refl.
  - unfold removeAt in *. cbn [firstn skipn app].
    eapply perm_trans; [|apply perm_swap].
    apply perm_skip. now apply IH.
Qed.

(** Nearest-neighbour selection visits every remaining dropoff once. *)
Lemma nearestNeighbour_perm (current : RoutePoint) (remaining visited : list RoutePoint) :
  Spec.nearestNeighbour current remaining visited -> Permutation remaining visited.
Proof.
  induction 1 as [|current remaining i chosen visited Hnth _ _ _ IH].
  - apply perm_nil.
  - eapply perm_trans; [apply (removeAt_perm _ _ _ Hnth)|]. now apply perm_skip.
Qed.


(** Two requests between the same places, the later one first in the array:
    the pickups go by creation time, the dropoffs, at equal distance, by
    array order. *)
Example optimizeRoute_tie_keeps_array_order :
  optimizeRoute [Scenario.request2; Scenario.request1] =
  [pickupPoint Scenario.request1; pickupPoint Scenario.request2;
   dropoffPoint Scenario.request2; dropoffPoint Scenario.request1].
Proof.
  unfold optimizeRoute. cbv zeta.
  change (sortByCreatedAt [Scenario.request2; Scenario.request1])
    with [Scenario.request1; Scenario.request2].
  cbn [map rev app].
  simp visitDropoffs. cbv zeta. cbn [nearestScan].
  match goal with
  | |- context [Rlt_dec ?x ?y] => destruct (Rlt_dec x y) as [Hlt | _]
  end.
  { exfalso. revert Hlt. apply Rlt_irrefl. }
  cbn [nth removeAt firstn skipn app].
  simp visitDropoffs. cbv zeta. cbn [nearestScan nth removeAt firstn skipn app].
  simp visitDropoffs. reflexivity.
Qed.

(** The route of a single request is its pickup followed by its dropoff. *)
Lemma optimizeRoute_single (r : PoolRequest) :
  optimizeRoute [r] = [point_of_location (pickup r); point_of_location (dropoff r)].
Proof. reflexivity. Qed.

(** ** Maps *)

Section JsMapFacts.
Context {V : Type}.
Implicit Types (m : JsMap V) (k : string) (v : V).

Lemma map_get_set_same m k v : map_get k (map_set k v m) = Some v.
Proof.
  induction m as [|[k' v'] m IH]; simpl.
  - now rewrite String.eqb_refl.
  - destruct (String.eqb k' k) eqn:E; simpl; rewrite E; auto.
Qed.

Lemma map_get_set_other m k k' v :
  k <> k' -> map_get k' (map_set k v m) = map_get k' m.
Proof.
  intros Hne. induction m as [|[k0 v0] m IH]; simpl.
  - destruct (String.eqb k k') eqn:E; [|reflexivity].
    apply String.eqb_eq in E. contradiction.
  - destruct (String.eqb k0 k) eqn:E; simpl.
    + apply String.eqb_eq in E. subst k0.
      destruct (String.eqb k k') eqn:E'; [|reflexivity].
      apply String.eqb_eq in E'. contradiction.
    + now rewrite IH.
Qed.

Lemma map_get_delete_same m k : map_get k (map_delete k m) = None.
Proof.
  induction m as [|[k' v'] m IH]; simpl; [reflexivity|].
  destruct (String.eqb k' k) eqn:E; simpl; [assumption|].
  now rewrite E.
Qed.

Lemma map_get_In m k v : map_get k m = Some v -> In (k, v) m.
Proof.
  induction m as [|[k' v'] m IH]; simpl; [discriminate|].
  destruct (String.eqb k' k) eqn:E.
  - apply String.eqb_eq in E. intros [= ->]. subst. now left.
  - intros H. right. now apply IH.
Qed.

(** An entry of [map_set k v m] is the new entry or an entry of [m]. *)
Lemma In_map_set m k v k' v' :
  In (k', v') (map_set k v m) -> (k' = k /\ v' = v) \/ In (k', v') m.
Proof.
  induction m as [|[k0 v0] m IH]; simpl.
  - intros [[= <- <-] | []]. now left.
  - destruct (String.eqb k0 k) eqn:E.
    + apply String.eqb_eq in E. subst k0.
      intros [[= <- <-] | H]; [now left | right; now right].
    + intros [H | H]; [right; now left|].
      destruct (IH H) as [? | ?]; [now left | right; now right].
Qed.

Lemma In_map_delete m k e : In e (map_delete k m) -> In e m /\ fst e <> k.
Proof.
  unfold map_delete. intros H. apply filter_In in H as [Hin Hk].
  split; [assumption|]. intros Heq.
  rewrite Heq, String.eqb_refl in Hk. discriminate.
Qed.

Lemma map_keys_set m k v :
  NoDup (map_keys m) -> NoDup (map_keys (map_set k v m)).
Proof.
  unfold map_keys.
  induction m as [|[k0 v0] m IH]; simpl; intros Hnd.
  - constructor; [intros [] | constructor].
  - inversion Hnd as [|? ? Hnotin Hnd']; subst.
    destruct (String.eqb k0 k) eqn:E; simpl.
    + now constructor.
    + constructor; [|now apply IH].
      intros Hin. apply in_map_iff in Hin as [[k1 v1] [Hk Hin]].
      simpl in Hk. subst k1.
      apply In_map_set in Hin as [[-> _] | Hin].
      * now rewrite String.eqb_refl in E.
      * apply Hnotin. apply in_map_iff. now exists (k0, v1).
Qed.

Lemma map_keys_delete m k :
  NoDup (map_keys m) -> NoDup (map_keys (map_delete k m)).
Proof.
  unfold map_keys, map_delete.
  induction m as [|[k0 v0] m IH]; simpl; intros Hnd; [constructor|].
  inversion Hnd as [|? ? Hnotin Hnd']; subst.
  destruct (String.eqb k0 k); simpl; [now apply IH|].
  constructor; [|now apply IH].
  intros Hin. apply Hnotin.
  apply in_map_iff in Hin as [e [He Hin]].
  apply filter_In in Hin as [Hin _].
  apply in_map_iff. now exists e.
Qed.

End JsMapFacts.

(** ** Distances between nearby points *)

Lemma sin_sqr_le (x : R) : sin x * sin x <= x * x.
Proof.
  pose proof PI2_3_2 as Hpi.
  destruct (Rtotal_order x 0) as [Hneg | [-> | Hpos]].
  - assert (H : sin (- x) < - x) by (apply sin_lt_x; lra).
    pose proof (SIN_bound x) as [Hlo Hhi].
    destruct (Rle_dec (- x) 1).
    + assert (0 < sin (- x)) by (apply sin_gt_0; lra).
      rewrite sin_neg in *. nra.
    + nra.
  - rewrite sin_0. lra.
  - assert (H : sin x < x) by (apply sin_lt_x; lra).
    pose proof (SIN_bound x) as [Hlo Hhi].
    destruct (Rle_dec x 1).
    + assert (0 < sin x) by (apply sin_gt_0; lra).
      nra.
    + nra.
Qed.

Lemma tan_lower_bound (t : R) : 0 < t <= 1 -> t - t * t * t / 6 <= tan t.
Proof.
  intros [H0 H1].
  pose proof PI2_3_2 as Hpi.
  assert (HtPI : t <= PI) by lra.
  destruct (sin_bound t 0 (Rlt_le _ _ H0) HtPI) as [Hs _].
  unfold sin_approx, sin_term in Hs. simpl in Hs.
  assert (Hc : 0 < cos t) by (apply cos_gt_0; lra).
  pose proof (COS_bound t) as [_ Hc1].
  assert (Hs0 : 0 < sin t) by (apply sin_gt_0; lra).
  unfold tan.
  assert (sin t <= sin t / cos t).
  { apply Rmult_le_reg_r with (cos t); [assumption|].
    unfold Rdiv. rewrite Rmult_assoc, Rinv_l by lra. nra. }
  lra.
Qed.

Lemma atan_lt_small (x t : R) :
  0 < t <= 1 -> x < t - t * t * t / 6 -> atan x < t.
Proof.
  intros Ht Hx.
  pose proof (tan_lower_bound t Ht) as Htan.
  pose proof PI2_3_2 as Hpi.
  rewrite <- (atan_tan t) by lra.
  apply atan_increasing. lra.
Qed.

Lemma Rabs_le_bounds (x b : R) : Rabs x <= b -> - b <= x <= b.
Proof.
  intros H. pose proof (Rle_abs x) as H1. pose proof (Rle_abs (- x)) as H2.
  rewrite Rabs_Ropp in H2. lra.
Qed.

Lemma small_angle_sqr (delta : R) :
  Rabs delta <= 0.02 ->
  (delta * PI / 180 / 2) * (delta * PI / 180 / 2) <= 5 / 100000000.
Proof.
  intros Hd. apply Rabs_le_bounds in Hd.
  pose proof PI_4 as Hpi4. pose proof PI_RGT_0 as Hpi0.
  assert (- (8 / 100) <= delta * PI <= 8 / 100) by nra.
  replace (delta * PI / 180 / 2) with (delta * PI / 360) by lra.
  set (w := delta * PI) in *. nra.
Qed.

(** Two points whose coordinates differ by at most 0.02 degrees are less
    than 5 km apart. *)
Lemma calculateDistance_nearby (p q : LatLng) :
  Rabs (lat q - lat p) <= 0.02 ->
  Rabs (lng q - lng p) <= 0.02 ->
  calculateDistance p q < 5.
Proof.
  intros Hlat Hlng. unfold calculateDistance. cbv zeta.
  pose proof (small_angle_sqr _ Hlat) as Hu.
  pose proof (small_angle_sqr _ Hlng) as Hv.
  set (u := (lat q - lat p) * PI / 180 / 2) in *.
  set (v := (lng q - lng p) * PI / 180 / 2) in *.
  set (c1 := cos (lat p * PI / 180)).
  set (c2 := cos (lat q * PI / 180)).
  set (a := sin u * sin u + c1 * c2 * sin v * sin v).
  pose proof (sin_sqr_le u) as Hsu. pose proof (sin_sqr_le v) as Hsv.
  assert (Hcc : c1 * c2 <= 1).
  { pose proof (COS_bound (lat p * PI / 180)).
    pose proof (COS_bound (lat q * PI / 180)).
    unfold c1, c2. nra. }
  assert (Ha : a <= 1 / 10000000).
  { unfold a. assert (0 <= sin v * sin v) by nra. nra. }
  assert (Hsa : sqrt a <= 32 / 100000).
  { rewrite <- (sqrt_square (32 / 100000)) by lra.
    apply sqrt_le_1_alt. lra. }
  assert (Hs1 : 9 / 10 <= sqrt (1 - a)).
  { rewrite <- (sqrt_square (9 / 10)) by lra.
    apply sqrt_le_1_alt. lra. }
  pose proof (sqrt_pos a) as Hsa0.
  unfold JsMath.atan2.
  destruct (Rlt_dec 0 (sqrt (1 - a))); [|lra].
  assert (Hx : sqrt a / sqrt (1 - a) <= 36 / 100000).
  { apply Rmult_le_reg_r with (sqrt (1 - a)); [assumption|].
    unfold Rdiv. rewrite Rmult_assoc, Rinv_l by lra. nra. }
  assert (Hatan : atan (sqrt a / sqrt (1 - a)) < 38 / 100000)
    by (apply atan_lt_small; lra).
  lra.
Qed.

(** The trip of scenario A is shorter than 5 km. *)
Lemma scenarioA_distance :
  0 <= calculateDistance Scenario.pickupA Scenario.dropoffA < 5.
Proof.
  split; [apply calculateDistance_nonneg|].
  apply calculateDistance_nearby; simpl; apply Rabs_le; lra.
Qed.

(** ** Distance and cost *)

Lemma totalDistanceLoop_spec (route : list RoutePoint) :
  forall totalDistance,
    totalDistanceLoop totalDistance route = totalDistance + Spec.routeLength route.
Proof.
  induction route as [|p route IH]; intros acc; simpl.
  - lra.
  - destruct route as [|q route]; [lra|].
    rewrite IH. simpl. lra.
Qed.

Lemma calculateTotalDistance_routeLength (route : list RoutePoint) :
  calculateTotalDistance route = Spec.routeLength route.
Proof.
  unfold calculateTotalDistance. rewrite totalDistanceLoop_spec. lra.
Qed.

Lemma routeLength_nonneg (route : list RoutePoint) : 0 <= Spec.routeLength route.
Proof.
  induction route as [|p route IH]; simpl; [lra|].
  destruct route as [|q route]; [lra|].
  pose proof (calculateDistance_nonneg p q). lra.
Qed.

Lemma calculateTotalDistance_nonneg (route : list RoutePoint) :
  0 <= calculateTotalDistance route.
Proof.
  rewrite calculateTotalDistance_routeLength. apply routeLength_nonneg.
Qed.

(** ** Matching *)

Lemma calculateAdditionalTime_value (pool : PoolMatch) (request : PoolRequest) :
  calculateAdditionalTime pool request = 20.
Proof. unfold calculateAdditionalTime. lra. Qed.

(** Whatever the delay allowed, the loop returns a pool of the registry that
    has room and passed the three other filters. *)
Lemma findMatchingPoolLoop_sound (maxWaitTimeMinutes : R) (request : PoolRequest)
    (candidates : list PoolMatch) (pool : PoolMatch) :
  findMatchingPoolLoop maxWaitTimeMinutes request candidates = Some pool ->
  In pool candidates /\
  (length (requests pool) < 3)%nat /\
  calculateAdditionalTime pool request <= maxWaitTimeMinutes /\
  0.7 <= calculateRouteCompatibility pool request /\
  calculatePoolCost pool request < costPerCustomer pool * 1.1.
Proof.
  induction candidates as [|candidate candidates IH];
    cbn [findMatchingPoolLoop]; [discriminate|]. cbv zeta.
  destruct (3 <=? length (requests candidate))%nat eqn:Hfull.
  { intros H. destruct (IH H) as [? ?]. split; [now right | assumption]. }
  apply Nat.leb_gt in Hfull.
  destruct (Rgt_dec (calculateAdditionalTime candidate request) maxWaitTimeMinutes)
    as [Hlate | Hintime].
  { intros H. destruct (IH H) as [? ?]. split; [now right | assumption]. }
  destruct (Rlt_dec (calculateRouteCompatibility candidate request) 0.7)
    as [Hlow | Hscore].
  { intros H. destruct (IH H) as [? ?]. split; [now right | assumption]. }
  destruct (Rlt_dec (calculatePoolCost candidate request)
              (costPerCustomer candidate * 1.1)) as [Hcost | Hdear].
  - intros [= <-]. repeat split; [now left | assumption | lra | lra | assumption].
  - intros H. destruct (IH H) as [? ?]. split; [now right | assumption].
Qed.

(** With less than 20 minutes of delay allowed no pool is ever selected. *)
Lemma findMatchingPoolLoop_delay (maxWaitTimeMinutes : R) (request : PoolRequest)
    (candidates : list PoolMatch) :
  maxWaitTimeMinutes < 20 ->
  findMatchingPoolLoop maxWaitTimeMinutes request candidates = None.
Proof.
  intros Hmax.
  induction candidates as [|candidate candidates IH];
    cbn [findMatchingPoolLoop]; [reflexivity|]. cbv zeta.
  destruct (3 <=? length (requests candidate))%nat; [assumption|].
  destruct (Rgt_dec (calculateAdditionalTime candidate request) maxWaitTimeMinutes)
    as [Hlate | Hintime]; [assumption|].
  rewrite calculateAdditionalTime_value in Hintime. lra.
Qed.

(** The allowed delay is 15 minutes: [findMatchingPool] finds no pool. *)
Lemma findMatchingPool_none (this : PoolingService) (request : PoolRequest) :
  findMatchingPool this request = None.
Proof.
  unfold findMatchingPool. cbv zeta. apply findMatchingPoolLoop_delay. lra.
Qed.

(** Hence [addPoolRequest] always opens a new pool. *)
Lemma addPoolRequest_creates (this : PoolingService) (newPoolId : string)
    (request : PoolRequest) :
  addPoolRequest this newPoolId request =
  createNewPool
    (mkPoolingService (map_set (id request) request (activeRequests this))
       (pools this))
    newPoolId request.
Proof.
  unfold addPoolRequest. cbv zeta. now rewrite findMatchingPool_none.
Qed.

Lemma addPoolRequest_pools (this : PoolingService) (newPoolId : string)
    (request : PoolRequest) :
  pools (snd (addPoolRequest this newPoolId request)) =
  map_set newPoolId
    (mkPoolMatch newPoolId [request]
       [point_of_location (pickup request); point_of_location (dropoff request)]
       (calculateDistance (pickup request) (dropoff request)) 30 100 0)
    (pools this).
Proof. rewrite addPoolRequest_creates. reflexivity. Qed.

(** ** What the operations leave in the registry *)

(** A pool opened for a request: the request alone, its own two stops, the
    placeholders for time and cost. *)
Lemma addPoolRequest_created (this : PoolingService) (newPoolId : string)
    (request : PoolRequest) :
  fst (addPoolRequest this newPoolId request) = Returned newPoolId /\
  exists created,
    getPool (snd (addPoolRequest this newPoolId request)) newPoolId = Some created /\
    requests created = [request] /\
    route created =
      [point_of_location (pickup request); point_of_location (dropoff request)] /\
    totalDistance created = calculateDistance (pickup request) (dropoff request) /\
    estimatedTime created = 30 /\
    costPerCustomer created = 100 /\
    savings created = 0.
Proof.
  rewrite addPoolRequest_creates. split; [reflexivity|].
  eexists. split.
  - unfold getPool, createNewPool. cbn [snd pools]. apply map_get_set_same.
  - repeat split; reflexivity.
Qed.

(** A pool after [addToExistingPool]: route, distance and time follow the
    new membership; the cost is [calculatePoolCost] of the pool as joined. *)
Lemma addToExistingPool_joined (this : PoolingService) (poolId : string)
    (pool : PoolMatch) (request : PoolRequest) :
  map_get poolId (pools this) = Some pool ->
  fst (addToExistingPool this poolId request) = Returned poolId /\
  exists joined,
    getPool (snd (addToExistingPool this poolId request)) poolId = Some joined /\
    requests joined = requests pool ++ [request] /\
    route joined = optimizeRoute (requests joined) /\
    totalDistance joined = calculateTotalDistance (route joined) /\
    estimatedTime joined =
      calculateEstimatedTime (route joined) (length (requests joined)) /\
    costPerCustomer joined =
      (50 + (totalDistance joined + 2) * 10) / INR (length (requests joined) + 1) /\
    savings joined = calculateSavings joined /\
    pools (snd (addToExistingPool this poolId request)) =
      map_set poolId joined (pools this).
Proof.
  intros Hget. unfold addToExistingPool. rewrite Hget. cbv zeta.
  split; [reflexivity|].
  eexists. split.
  - unfold getPool. cbn [snd pools]. apply map_get_set_same.
  - repeat split; reflexivity.
Qed.

(** A pool after [removeFromPool] took a request out and left others. *)
Lemma removeFromPool_shrunk (this : PoolingService) (requestId poolId : string)
    (pool : PoolMatch) (index : nat) :
  findPoolOf requestId (pools this) = Some (poolId, pool, index) ->
  removeAt index (requests pool) <> [] ->
  exists shrunk,
    getPool (removeFromPool this requestId) poolId = Some shrunk /\
    requests shrunk = removeAt index (requests pool) /\
    route shrunk = optimizeRoute (requests shrunk) /\
    totalDistance shrunk = calculateTotalDistance (route shrunk) /\
    estimatedTime shrunk =
      calculateEstimatedTime (route shrunk) (length (requests shrunk)) /\
    costPerCustomer shrunk =
      totalDistance shrunk * 10 / INR (length (requests shrunk)) /\
    savings shrunk = calculateSavings shrunk /\
    pools (removeFromPool this requestId) = map_set poolId shrunk (pools this).
Proof.
  intros Hfind Hrest. unfold removeFromPool. rewrite Hfind. cbv zeta.
  destruct (length (removeAt index (requests pool)) =? 0)%nat eqn:Hlen.
  - apply Nat.eqb_eq, length_zero_iff_nil in Hlen. contradiction.
  - eexists. split.
    + unfold getPool. cbn [pools]. apply map_get_set_same.
    + repeat split; reflexivity.
Qed.

(** The allocator of the specification, on the code's functions. *)
Lemma allocate_totalDistance (members : list PoolRequest) :
  Spec.alloc_totalDistance (Spec.allocate members) =
  calculateTotalDistance (optimizeRoute members).
Proof. now rewrite calculateTotalDistance_routeLength. Qed.

Lemma allocate_estimatedTime (members : list PoolRequest) :
  Spec.alloc_estimatedTime (Spec.allocate members) =
  calculateEstimatedTime (optimizeRoute members) (length members).
Proof.
  unfold calculateEstimatedTime. cbv zeta.
  rewrite calculateTotalDistance_routeLength. simpl. lra.
Qed.

Lemma allocate_single (request : PoolRequest) :
  Spec.allocate [request] =
  Spec.mkAllocation
    (calculateDistance (pickup request) (dropoff request))
    (calculateDistance (pickup request) (dropoff request) * 2 + 10)
    (50 + calculateDistance (pickup request) (dropoff request) * 10)
    0.
Proof.
  unfold Spec.allocate. cbv zeta. rewrite optimizeRoute_single.
  cbn [Spec.routeLength length INR].
  change (calculateDistance (point_of_location (pickup request))
            (point_of_location (dropoff request)))
    with (calculateDistance (pickup request) (dropoff request)).
  f_equal; lra.
Qed.

(** The first request of scenario A opens ["pool_1"]. *)
Lemma afterRequest1_pools :
  pools Scenario.afterRequest1 =
  [("pool_1"%string,
    mkPoolMatch "pool_1" [Scenario.request1]
      [point_of_location Scenario.pickupA; point_of_location Scenario.dropoffA]
      (calculateDistance Scenario.pickupA Scenario.dropoffA) 30 100 0)].
Proof.
  unfold Scenario.afterRequest1. rewrite addPoolRequest_pools. reflexivity.
Qed.

(** ** Scenario A: the first request *)

(** C4, as the code has it.  A request added into an empty registry opens
    the registry's only pool: the request alone, route [[pickup, dropoff]],
    savings 0, distance from pickup to dropoff, and the placeholder cost of
    100 per customer whatever that distance. *)
Theorem first_request_opens_placeholder_pool (request : PoolRequest)
    (newPoolId : string) :
  fst (addPoolRequest emptyService newPoolId request) = Returned newPoolId /\
  exists created,
    getActivePools (snd (addPoolRequest emptyService newPoolId request)) = [created] /\
    getPool (snd (addPoolRequest emptyService newPoolId request)) newPoolId =
      Some created /\
    length (requests created) = 1%nat /\
    requests created = [request] /\
    route created =
      [point_of_location (pickup request); point_of_location (dropoff request)] /\
    savings created = 0 /\
    totalDistance created = calculateDistance (pickup request) (dropoff request) /\
    costPerCustomer created = 100.
Proof.
  rewrite addPoolRequest_creates. split; [reflexivity|].
  eexists. split; [reflexivity|]. split.
  - unfold getPool, createNewPool. cbn [snd pools emptyService map_set map_get].
    now rewrite String.eqb_refl.
  - repeat split; reflexivity.
Qed.

(** C4 as stated fails on the request of scenario A: the pool it opens does
    not cost 50 + distance * 10 per customer. *)
Lemma scenarioA_cost_is_not_the_solo_fare :
  ~ (exists created,
       getPool (snd (addPoolRequest emptyService "pool_1" Scenario.request1))
         "pool_1" = Some created /\
       length (requests created) = 1%nat /\
       route created =
         [point_of_location Scenario.pickupA; point_of_location Scenario.dropoffA] /\
       savings created = 0 /\
       costPerCustomer created =
         50 + calculateDistance Scenario.pickupA Scenario.dropoffA * 10).
Proof.
  intros (created & Hget & _ & _ & _ & Hcost).
  destruct (addPoolRequest_created emptyService "pool_1" Scenario.request1)
    as [_ (created' & Hget' & _ & _ & _ & _ & Hcost' & _)].
  rewrite Hget in Hget'. injection Hget' as <-.
  pose proof scenarioA_distance as Hd. lra.
Qed.

(** ** Scenario B: a second, similar request *)

(** C2, as the code has it.  The estimated additional delay is 20 minutes for
    every pool, above the cutoff of 15, so [findMatchingPool] finds no pool:
    the second request of scenario B opens ["pool_2"] and the pool of the
    first request keeps its single member. *)
Theorem scenarioB_second_request_not_merged :
  (forall pool, calculateAdditionalTime pool Scenario.request2 = 20) /\
  findMatchingPool Scenario.afterRequest1 Scenario.request2 = None /\
  fst (addPoolRequest Scenario.afterRequest1 "pool_2" Scenario.request2) =
    Returned "pool_2"%string /\
  exists first second,
    getActivePools
      (snd (addPoolRequest Scenario.afterRequest1 "pool_2" Scenario.request2)) =
      [first; second] /\
    requests first = [Scenario.request1] /\
    requests second = [Scenario.request2].
Proof.
  split; [intros pool; apply calculateAdditionalTime_value|].
  split; [apply findMatchingPool_none|].
  rewrite addPoolRequest_creates. split; [reflexivity|].
  unfold getActivePools, createNewPool. cbn [snd pools].
  rewrite afterRequest1_pools.
  do 2 eexists. split; [reflexivity|]. split; reflexivity.
Qed.

(** The delay filter alone stands between the second request and the pool of
    the first: were 20 minutes allowed, the loop would select that pool. *)
Lemma scenarioB_passes_the_other_filters :
  exists first,
    getActivePools Scenario.afterRequest1 = [first] /\
    findMatchingPoolLoop 20 Scenario.request2
      (getActivePools Scenario.afterRequest1) = Some first.
Proof.
  unfold getActivePools. rewrite afterRequest1_pools.
  eexists. split; [reflexivity|].
  cbn [map_values map snd findMatchingPoolLoop requests length Nat.leb].
  cbv zeta.
  match goal with
  | |- context [Rgt_dec ?t 20] => destruct (Rgt_dec t 20) as [Hlate | _]
  end.
  { rewrite calculateAdditionalTime_value in Hlate. lra. }
  assert (Hscore : calculateRouteCompatibility
            (mkPoolMatch "pool_1" [Scenario.request1]
               [point_of_location Scenario.pickupA;
                point_of_location Scenario.dropoffA]
               (calculateDistance Scenario.pickupA Scenario.dropoffA) 30 100 0)
            Scenario.request2 = 1).
  { unfold calculateRouteCompatibility. rewrite compatibilityLoop_spec.
    cbn [requests length Nat.add Nat.ltb Nat.leb Spec.sumComposite INR].
    unfold Spec.composite, Spec.proximity, Spec.directionSimilarity. cbv zeta.
    cbn [Scenario.request1 Scenario.request2 pickup dropoff].
    rewrite !calculateDistance_same by reflexivity.
    rewrite Rminus_diag, Rabs_R0.
    rewrite Rmin_left by lra.
    replace (1 - 0 / 5) with 1 by lra. replace (1 - 0 / 90) with 1 by lra.
    rewrite Rmax_right by lra. lra. }
  rewrite Hscore.
  destruct (Rlt_dec 1 0.7) as [Hlow | _]; [lra|].
  match goal with
  | |- context [Rlt_dec ?c ?b] => destruct (Rlt_dec c b) as [_ | Hdear]
  end; [reflexivity|].
  exfalso. apply Hdear. unfold calculatePoolCost. cbv zeta.
  cbn [totalDistance requests length costPerCustomer Nat.add INR].
  pose proof scenarioA_distance. lra.
Qed.

(** ** Looking a request up *)

Lemma findIndex_None (requestId : string) (rs : list PoolRequest) :
  findIndex requestId rs = None <-> ~ In requestId (map id rs).
Proof.
  induction rs as [|r rs IH]; simpl.
  - split; [intros _ [] | reflexivity].
  - destruct (String.eqb (id r) requestId) eqn:E.
    + apply String.eqb_eq in E. split; [discriminate|].
      intros H. exfalso. apply H. now left.
    + apply String.eqb_neq in E.
      destruct (findIndex requestId rs); simpl.
      * split; [discriminate|]. intros H. exfalso.
        assert (Hin : In requestId (map id rs)).
        { destruct (in_dec string_dec requestId (map id rs)) as [Hin | Hnot];
            [assumption|].
          apply IH in Hnot. discriminate. }
        apply H. now right.
      * split; [|reflexivity]. intros _ [Heq | Hin]; [contradiction|].
        now apply (proj1 IH).
Qed.

Lemma findIndex_Some (requestId : string) (rs : list PoolRequest) (index : nat) :
  findIndex requestId rs = Some index ->
  exists r, nth_error rs index = Some r /\ id r = requestId.
Proof.
  revert index. induction rs as [|r rs IH]; intros index; simpl; [discriminate|].
  destruct (String.eqb (id r) requestId) eqn:E.
  - apply String.eqb_eq in E. intros [= <-]. exists r. now split.
  - destruct (findIndex requestId rs) as [i|]; simpl; [|discriminate].
    intros [= <-]. simpl. now apply IH.
Qed.

Lemma findPoolOf_None (requestId : string) (entries : JsMap PoolMatch) :
  findPoolOf requestId entries = None <->
  (forall poolId pool, In (poolId, pool) entries ->
     ~ In requestId (map id (requests pool))).
Proof.
  induction entries as [|[k p] entries IH]; simpl.
  - split; [intros _ ? ? [] | reflexivity].
  - destruct (findIndex requestId (requests p)) as [i|] eqn:Hidx.
    + split; [discriminate|]. intros H. exfalso.
      assert (Hnone : findIndex requestId (requests p) = None).
      { apply findIndex_None, (H k p). now left. }
      congruence.
    + apply findIndex_None in Hidx. rewrite IH. split.
      * intros H poolId pool [[= <- <-] | Hin]; [assumption | now apply (H poolId)].
      * intros H poolId pool Hin. apply (H poolId). now right.
Qed.

(** The pool found is the first of the registry that holds the request. *)
Lemma findPoolOf_Some (requestId : string) (entries : JsMap PoolMatch)
    (poolId : string) (pool : PoolMatch) (index : nat) :
  findPoolOf requestId entries = Some (poolId, pool, index) ->
  In (poolId, pool) entries /\
  findIndex requestId (requests pool) = Some index /\
  exists before after,
    entries = before ++ (poolId, pool) :: after /\
    forall k p, In (k, p) before -> ~ In requestId (map id (requests p)).
Proof.
  induction entries as [|[k p] entries IH]; simpl; [discriminate|].
  destruct (findIndex requestId (requests p)) as [i|] eqn:Hidx.
  - intros [= <- <- <-]. split; [now left|]. split; [assumption|].
    exists [], entries. split; [reflexivity|]. intros ? ? [].
  - intros H. destruct (IH H) as (Hin & Hfound & before & after & Heq & Hbefore).
    split; [now right|]. split; [assumption|].
    exists ((k, p) :: before), after. split; [now rewrite Heq|].
    intros k' p' [[= <- <-] | Hin']; [now apply findIndex_None | now apply (Hbefore k')].
Qed.

Lemma removeAt_length_le {A : Type} (i : nat) (l : list A) :
  (length (removeAt i l) <= length l)%nat.
Proof.
  unfold removeAt. rewrite length_app, length_firstn, length_skipn. lia.
Qed.

Lemma map_delete_absent {V : Type} (m : JsMap V) (k : string) :
  map_get k m = None -> map_delete k m = m.
Proof.
  induction m as [|[k' v] m IH]; simpl; [reflexivity|].
  destruct (String.eqb k' k) eqn:E; [discriminate|].
  intros H. simpl. now rewrite IH.
Qed.

(** ** Removing a request no pool holds *)

(** C9.  For every registry state and every request id that belongs to no
    pool, [removeFromPool] is a no-op: it returns (the model has no failing
    path), and every pool, with its derived fields, is as before. *)
Theorem remove_unknown_request_is_noop (this : PoolingService) (requestId : string) :
  unknownRequest this requestId ->
  pools (removeFromPool this requestId) = pools this /\
  getActivePools (removeFromPool this requestId) = getActivePools this /\
  (forall poolId,
     getPool (removeFromPool this requestId) poolId = getPool this poolId) /\
  (map_get requestId (activeRequests this) = None ->
   removeFromPool this requestId = this).
Proof.
  intros Hunknown. apply findPoolOf_None in Hunknown.
  assert (Hpools : pools (removeFromPool this requestId) = pools this).
  { unfold removeFromPool. now rewrite Hunknown. }
  split; [exact Hpools|]. split; [|split].
  - unfold getActivePools. now rewrite Hpools.
  - intros poolId. unfold getPool. now rewrite Hpools.
  - intros Habsent. unfold removeFromPool. rewrite Hunknown. cbv zeta.
    rewrite map_delete_absent by assumption. now destruct this.
Qed.

(** ** Invariants of the membership lists *)

Section MembershipInvariant.

(** A property of membership lists that holds of a single request and
    survives the removal of a request that leaves others. *)
Variable P : list PoolRequest -> Prop.
Hypothesis P_single : forall r, P [r].
Hypothesis P_removeAt :
  forall rs i, P rs -> removeAt i rs <> [] -> P (removeAt i rs).

Lemma perform_invariant (this : PoolingService) (op : Operation) :
  everyPool P this -> everyPool P (perform this op).
Proof.
  intros Hthis k p Hin. destruct op as [newPoolId request | requestId];
    cbn [perform] in Hin.
  - rewrite addPoolRequest_pools in Hin.
    apply In_map_set in Hin as [[-> ->] | Hin]; [apply P_single | eauto].
  - unfold removeFromPool in Hin.
    destruct (findPoolOf requestId (pools this)) as [[[poolId pool] index]|]
      eqn:Hfind; [|eauto].
    apply findPoolOf_Some in Hfind as (Hpool & _).
    cbv zeta in Hin.
    destruct (length (removeAt index (requests pool)) =? 0)%nat eqn:Hlen;
      cbn [pools] in Hin.
    + apply In_map_delete in Hin as [Hin _]. eauto.
    + apply In_map_set in Hin as [[-> ->] | Hin]; [|eauto].
      cbn [requests]. apply P_removeAt; [eauto|].
      intros Hnil. rewrite Hnil in Hlen. discriminate.
Qed.

Lemma performAll_invariant (ops : list Operation) :
  forall this, everyPool P this -> everyPool P (performAll ops this).
Proof.
  unfold performAll.
  induction ops as [|op ops IH]; intros this Hthis; [exact Hthis|].
  cbn [fold_left]. apply IH. now apply perform_invariant.
Qed.

End MembershipInvariant.

Lemma withinCapacity_single (r : PoolRequest) : withinCapacity [r].
Proof. unfold withinCapacity. simpl. lia. Qed.

Lemma withinCapacity_removeAt (rs : list PoolRequest) (i : nat) :
  withinCapacity rs -> removeAt i rs <> [] -> withinCapacity (removeAt i rs).
Proof.
  unfold withinCapacity. intros Hrs Hrest.
  pose proof (removeAt_length_le i rs).
  destruct (removeAt i rs); [contradiction | simpl in *; lia].
Qed.

Lemma perform_capacity (this : PoolingService) (op : Operation) :
  capacityInvariant this -> capacityInvariant (perform this op).
Proof.
  exact (perform_invariant withinCapacity withinCapacity_single
           withinCapacity_removeAt this op).
Qed.

Lemma performAll_capacity (ops : list Operation) (this : PoolingService) :
  capacityInvariant this -> capacityInvariant (performAll ops this).
Proof.
  exact (performAll_invariant withinCapacity withinCapacity_single
           withinCapacity_removeAt ops this).
Qed.

Lemma nonEmpty_single (r : PoolRequest) : [r] <> [].
Proof. discriminate. Qed.

Lemma perform_noEmptyPool (this : PoolingService) (op : Operation) :
  noEmptyPool this -> noEmptyPool (perform this op).
Proof.
  exact (perform_invariant (fun rs => rs <> []) nonEmpty_single
           (fun rs i _ H => H) this op).
Qed.

Lemma performAll_noEmptyPool (ops : list Operation) (this : PoolingService) :
  noEmptyPool this -> noEmptyPool (performAll ops this).
Proof.
  exact (performAll_invariant (fun rs => rs <> []) nonEmpty_single
           (fun rs i _ H => H) ops this).
Qed.

(** Every state the service reaches keeps its pools between one and three
    requests. *)
Lemma reachable_capacity (this : PoolingService) :
  reachable this -> capacityInvariant this.
Proof.
  intros [ops ->]. apply performAll_capacity. intros ? ? [].
Qed.

Lemma reachable_noEmptyPool (this : PoolingService) :
  reachable this -> noEmptyPool this.
Proof.
  intros [ops ->]. apply performAll_noEmptyPool. intros ? ? [].
Qed.

(** The registry stays a map. *)
Lemma perform_uniquePoolIds (this : PoolingService) (op : Operation) :
  uniquePoolIds this -> uniquePoolIds (perform this op).
Proof.
  unfold uniquePoolIds. intros Hthis.
  destruct op as [newPoolId request | requestId]; cbn [perform].
  - rewrite addPoolRequest_pools. now apply map_keys_set.
  - unfold removeFromPool.
    destruct (findPoolOf requestId (pools this)) as [[[poolId pool] index]|];
      [|assumption].
    cbv zeta.
    destruct (length (removeAt index (requests pool)) =? 0)%nat; cbn [pools].
    + now apply map_keys_delete.
    + now apply map_keys_set.
Qed.

(** ** Capacity *)

(** C8.  From every state whose pools hold between one and three requests --
    every reachable state is one -- and for every sequence of [addPoolRequest]
    and [removeFromPool] operations, every pool still holds between one and
    three requests.  In particular a pool with three members is never the
    pool matching selects, whatever the delay allowed and however well the
    request scores, and the request goes into another pool: the pool of three
    is as before and the request is in the pool [addPoolRequest] returns. *)
Theorem capacity_invariant_preserved (this : PoolingService)
    (ops : list Operation) :
  capacityInvariant this ->
  capacityInvariant (performAll ops this) /\
  forall (request : PoolRequest) (newPoolId poolId : string) (full : PoolMatch),
    getPool (performAll ops this) poolId = Some full ->
    length (requests full) = 3%nat ->
    poolId <> newPoolId ->
    (forall maxWaitTimeMinutes,
       findMatchingPoolLoop maxWaitTimeMinutes request
         (getActivePools (performAll ops this)) <> Some full) /\
    getPool (snd (addPoolRequest (performAll ops this) newPoolId request)) poolId =
      Some full /\
    exists landing,
      fst (addPoolRequest (performAll ops this) newPoolId request) =
        Returned newPoolId /\
      getPool (snd (addPoolRequest (performAll ops this) newPoolId request))
        newPoolId = Some landing /\
      In request (requests landing).
Proof.
  intros Hcap. split; [now apply performAll_capacity|].
  intros request newPoolId poolId full Hget Hfull Hfresh.
  set (state := performAll ops this) in *.
  split; [|split].
  - intros maxWait Hmatch.
    apply findMatchingPoolLoop_sound in Hmatch as (_ & Hroom & _). lia.
  - unfold getPool. rewrite addPoolRequest_pools.
    rewrite map_get_set_other by congruence. exact Hget.
  - destruct (addPoolRequest_created state newPoolId request)
      as [Hret (created & Hcreated & Hreq & _)].
    exists created. split; [exact Hret|]. split; [exact Hcreated|].
    rewrite Hreq. now left.
Qed.

(** ** Removing the sole member of a pool *)

Lemma findIndex_In (requestId : string) (rs : list PoolRequest) (index : nat) :
  findIndex requestId rs = Some index -> In requestId (map id rs).
Proof.
  intros Hidx.
  destruct (in_dec string_dec requestId (map id rs)) as [Hin | Hnot];
    [assumption|].
  apply findIndex_None in Hnot. congruence.
Qed.

Lemma removeFromPool_sole_member (this : PoolingService) (poolId : string)
    (pool : PoolMatch) (member : PoolRequest) :
  getPool this poolId = Some pool ->
  requests pool = [member] ->
  heldOnlyBy this (id member) poolId pool ->
  getPool (removeFromPool this (id member)) poolId = None.
Proof.
  intros Hget Hsole Honly.
  apply map_get_In in Hget.
  destruct (findPoolOf (id member) (pools this)) as [[[k p] index]|] eqn:Hfind.
  - pose proof (findPoolOf_Some _ _ _ _ _ Hfind) as (Hin & Hidx & _).
    destruct (Honly k p Hin (findIndex_In _ _ _ Hidx)) as [-> ->].
    rewrite Hsole in Hidx. simpl in Hidx. rewrite String.eqb_refl in Hidx.
    injection Hidx as <-.
    unfold removeFromPool. rewrite Hfind, Hsole. cbv zeta.
    cbn [removeAt firstn skipn app length Nat.eqb].
    unfold getPool. cbn [pools]. apply map_get_delete_same.
  - exfalso.
    apply (proj1 (findPoolOf_None _ _) Hfind poolId pool Hget).
    rewrite Hsole. now left.
Qed.

Lemma NoDup_app_disjoint {A : Type} (l1 l2 : list A) (x : A) :
  NoDup (l1 ++ l2) -> In x l1 -> In x l2 -> False.
Proof.
  induction l1 as [|a l1 IH]; simpl; intros Hnd Hin1 Hin2; [contradiction|].
  apply NoDup_cons_iff in Hnd as [Hnotin Hnd].
  destruct Hin1 as [-> | Hin1].
  - apply Hnotin, in_or_app. now right.
  - now apply IH.
Qed.

(** Where request identifiers are unique, the pool that holds one is the
    only one to. *)
Lemma uniqueRequestIds_heldOnlyBy (this : PoolingService) (requestId poolId : string)
    (pool : PoolMatch) :
  uniqueRequestIds this ->
  In (poolId, pool) (pools this) ->
  In requestId (map id (requests pool)) ->
  heldOnlyBy this requestId poolId pool.
Proof.
  unfold uniqueRequestIds, pooledRequestIds, heldOnlyBy.
  induction (pools this) as [|[k0 p0] entries IH]; simpl;
    intros Hnd Hpool Hheld k p Hin Hp; [contradiction|].
  assert (Htail : forall k' p', In (k', p') entries ->
            In requestId (map id (requests p')) ->
            In requestId (flat_map (fun e => map id (requests (snd e))) entries)).
  { intros k' p' Hin' Hp'. apply in_flat_map. now exists (k', p'). }
  destruct Hpool as [[= -> ->] | Hpool], Hin as [[= -> ->] | Hin].
  - now split.
  - exfalso. eapply NoDup_app_disjoint; eauto.
  - exfalso. eapply NoDup_app_disjoint; eauto.
  - apply NoDup_app_remove_l in Hnd. now apply IH.
Qed.

(** C7.  For every state whose pooled requests have distinct identifiers
    and in which a pool has exactly one member, [removeFromPool] of that
    member's identifier deletes the pool from the registry, and [getPool] of
    the pool's identifier then returns the not-found value.  No operation
    leaves an empty pool in a registry that had none, so no state the service
    reaches has a pool without members. *)
Theorem sole_member_removal_deletes_pool :
  (forall this poolId pool member,
     uniqueRequestIds this ->
     getPool this poolId = Some pool ->
     requests pool = [member] ->
     getPool (removeFromPool this (id member)) poolId = None) /\
  (forall this op, noEmptyPool this -> noEmptyPool (perform this op)) /\
  (forall this, reachable this -> noEmptyPool this).
Proof.
  split; [|split; [exact perform_noEmptyPool | exact reachable_noEmptyPool]].
  intros this poolId pool member Hunique Hget Hsole.
  apply (removeFromPool_sole_member this poolId pool member Hget Hsole).
  apply uniqueRequestIds_heldOnlyBy.
  - exact Hunique.
  - now apply map_get_In.
  - rewrite Hsole. now left.
Qed.

(** ** Derived fields after a change of membership *)

(** C3 as stated fails on the first request of scenario A: the pool it opens
    does not carry the values the cost allocator yields for its membership
    (the allocator's cost is below 100, the pool's cost is 100). *)
Lemma new_pool_carries_placeholders :
  ~ (exists created,
       getPool (snd (addPoolRequest emptyService "pool_1" Scenario.request1))
         "pool_1" = Some created /\
       Spec.consistent created).
Proof.
  intros (created & Hget & _ & _ & Hcost).
  destruct (addPoolRequest_created emptyService "pool_1" Scenario.request1)
    as [_ (created' & Hget' & Hreq & _ & _ & _ & Hcost' & _)].
  rewrite Hget in Hget'. injection Hget' as <-.
  rewrite Hreq, allocate_single in Hcost. cbn [Spec.alloc_costPerCustomer] in Hcost.
  pose proof scenarioA_distance as Hd.
  cbn [Scenario.request1 pickup dropoff] in Hcost. lra.
Qed.

(** C3, as the code has it.  A pool opened by [addPoolRequest] has the route
    and the total distance of its single member and the placeholders 30 and
    100 for time and cost.  After [removeFromPool] took a request out of a
    pool and left others, and after [addToExistingPool] put a request in,
    the pool's route, total distance and estimated time are exactly those the
    optimizer and the cost allocator yield for the current membership;
    recomputing them on that membership gives the same values. *)
Theorem derived_fields_follow_membership :
  (forall this newPoolId request,
     exists created,
       getPool (snd (addPoolRequest this newPoolId request)) newPoolId =
         Some created /\
       requests created = [request] /\
       route created = optimizeRoute (requests created) /\
       totalDistance created =
         Spec.alloc_totalDistance (Spec.allocate (requests created)) /\
       estimatedTime created = 30 /\
       costPerCustomer created = 100) /\
  (forall this requestId poolId pool index,
     findPoolOf requestId (pools this) = Some (poolId, pool, index) ->
     removeAt index (requests pool) <> [] ->
     exists shrunk,
       getPool (removeFromPool this requestId) poolId = Some shrunk /\
       requests shrunk = removeAt index (requests pool) /\
       route shrunk = optimizeRoute (requests shrunk) /\
       totalDistance shrunk =
         Spec.alloc_totalDistance (Spec.allocate (requests shrunk)) /\
       estimatedTime shrunk =
         Spec.alloc_estimatedTime (Spec.allocate (requests shrunk)) /\
       calculateTotalDistance (optimizeRoute (requests shrunk)) =
         totalDistance shrunk /\
       calculateEstimatedTime (optimizeRoute (requests shrunk))
         (length (requests shrunk)) = estimatedTime shrunk) /\
  (forall this poolId pool request,
     getPool this poolId = Some pool ->
     exists joined,
       getPool (snd (addToExistingPool this poolId request)) poolId =
         Some joined /\
       requests joined = requests pool ++ [request] /\
       route joined = optimizeRoute (requests joined) /\
       totalDistance joined =
         Spec.alloc_totalDistance (Spec.allocate (requests joined)) /\
       estimatedTime joined =
         Spec.alloc_estimatedTime (Spec.allocate (requests joined))).
Proof.
  split; [|split].
  - intros this newPoolId request.
    destruct (addPoolRequest_created this newPoolId request)
      as [_ (created & Hget & Hreq & Hroute & Hdist & Htime & Hcost & _)].
    exists created. split; [exact Hget|]. split; [exact Hreq|].
    rewrite Hreq, allocate_single. cbn [Spec.alloc_totalDistance].
    now rewrite optimizeRoute_single.
  - intros this requestId poolId pool index Hfind Hrest.
    destruct (removeFromPool_shrunk this requestId poolId pool index Hfind Hrest)
      as (shrunk & Hget & Hreq & Hroute & Hdist & Htime & _).
    exists shrunk. rewrite allocate_totalDistance, allocate_estimatedTime.
    rewrite Hroute in Hdist, Htime. now repeat split.
  - intros this poolId pool request Hget.
    destruct (addToExistingPool_joined this poolId pool request Hget)
      as [_ (joined & Hget' & Hreq & Hroute & Hdist & Htime & _)].
    exists joined. rewrite allocate_totalDistance, allocate_estimatedTime.
    rewrite Hroute in Hdist, Htime. now repeat split.
Qed.

(** ** The theorems at the scenarios *)

Lemma onePoolOfTwo_pools :
  exists joined,
    pools Scenario.onePoolOfTwo = [("pool_1"%string, joined)] /\
    requests joined = [Scenario.request1; Scenario.request2].
Proof.
  unfold Scenario.onePoolOfTwo.
  destruct (addToExistingPool_joined Scenario.afterRequest1 "pool_1"
              (mkPoolMatch "pool_1" [Scenario.request1]
                 [point_of_location Scenario.pickupA;
                  point_of_location Scenario.dropoffA]
                 (calculateDistance Scenario.pickupA Scenario.dropoffA) 30 100 0)
              Scenario.request2)
    as [_ (joined & _ & Hreq & _ & _ & _ & _ & _ & Hpools)].
  { rewrite afterRequest1_pools. reflexivity. }
  exists joined. split; [|exact Hreq].
  rewrite Hpools, afterRequest1_pools. reflexivity.
Qed.

Lemma onePoolOfThree_pools :
  exists joined,
    pools Scenario.onePoolOfThree = [("pool_1"%string, joined)] /\
    requests joined = [Scenario.request1; Scenario.request2; Scenario.request3].
Proof.
  destruct onePoolOfTwo_pools as (two & Hpools2 & Hreq2).
  unfold Scenario.onePoolOfThree.
  destruct (addToExistingPool_joined Scenario.onePoolOfTwo "pool_1" two
              Scenario.request3)
    as [_ (joined & _ & Hreq & _ & _ & _ & _ & _ & Hpools)].
  { rewrite Hpools2. reflexivity. }
  exists joined. split.
  - rewrite Hpools, Hpools2. reflexivity.
  - now rewrite Hreq, Hreq2.
Qed.


Lemma score_of_empty_pool_witness :
  requests (mkPoolMatch "pool_0" [] [] 0 0 0 0) = [] /\
  calculateRouteCompatibility (mkPoolMatch "pool_0" [] [] 0 0 0 0)
    Scenario.request1 = 0.
Proof.
  split; [reflexivity|].
  apply (score_of_empty_pool (mkPoolMatch "pool_0" [] [] 0 0 0 0)). reflexivity.
Defined.

Lemma remove_unknown_request_is_noop_witness :
  unknownRequest Scenario.afterRequest1 "req_9" /\
  pools (removeFromPool Scenario.afterRequest1 "req_9") =
    pools Scenario.afterRequest1.
Proof.
  assert (Hunknown : unknownRequest Scenario.afterRequest1 "req_9").
  { unfold unknownRequest. rewrite afterRequest1_pools.
    intros poolId pool [[= <- <-] | []] [Hid | []]. discriminate Hid. }
  split; [exact Hunknown|].
  exact (proj1 (remove_unknown_request_is_noop _ _ Hunknown)).
Defined.

Lemma capacity_invariant_preserved_witness :
  capacityInvariant Scenario.onePoolOfThree /\
  capacityInvariant
    (performAll [AddRequest "pool_2" Scenario.request4] Scenario.onePoolOfThree) /\
  exists full,
    getPool
      (performAll [AddRequest "pool_2" Scenario.request4] Scenario.onePoolOfThree)
      "pool_1" = Some full /\
    length (requests full) = 3%nat /\
    "pool_1"%string <> "pool_3"%string /\
    getPool
      (snd (addPoolRequest
              (performAll [AddRequest "pool_2" Scenario.request4]
                 Scenario.onePoolOfThree)
              "pool_3" Scenario.request4))
      "pool_1" = Some full.
Proof.
  destruct onePoolOfThree_pools as (full & Hpools & Hreq).
  assert (Hcap : capacityInvariant Scenario.onePoolOfThree).
  { unfold capacityInvariant, everyPool, withinCapacity. rewrite Hpools.
    intros poolId pool [[= <- <-] | []]. rewrite Hreq. simpl. lia. }
  destruct (capacity_invariant_preserved Scenario.onePoolOfThree
              [AddRequest "pool_2" Scenario.request4] Hcap) as [Hafter Hfull].
  split; [exact Hcap|]. split; [exact Hafter|].
  assert (Hget : getPool
            (performAll [AddRequest "pool_2" Scenario.request4]
               Scenario.onePoolOfThree) "pool_1" = Some full).
  { cbn [performAll fold_left perform]. unfold getPool.
    rewrite addPoolRequest_pools, map_get_set_other by discriminate.
    rewrite Hpools. reflexivity. }
  assert (Hlen : length (requests full) = 3%nat) by now rewrite Hreq.
  assert (Hfresh : "pool_1"%string <> "pool_3"%string) by discriminate.
  exists full. split; [exact Hget|]. split; [exact Hlen|]. split; [exact Hfresh|].
  exact (proj1 (proj2 (Hfull Scenario.request4 "pool_3"%string "pool_1"%string
                         full Hget Hlen Hfresh))).
Defined.

Lemma sole_member_removal_deletes_pool_witness :
  uniqueRequestIds Scenario.afterRequest1 /\
  getPool Scenario.afterRequest1 "pool_1" =
    Some (mkPoolMatch "pool_1" [Scenario.request1]
            [point_of_location Scenario.pickupA; point_of_location Scenario.dropoffA]
            (calculateDistance Scenario.pickupA Scenario.dropoffA) 30 100 0) /\
  getPool (removeFromPool Scenario.afterRequest1 (id Scenario.request1)) "pool_1" =
    None /\
  noEmptyPool (perform emptyService (AddRequest "pool_1" Scenario.request1)) /\
  noEmptyPool
    (performAll [AddRequest "pool_1" Scenario.request1; RemoveRequest "req_1"]
       emptyService).
Proof.
  assert (Hunique : uniqueRequestIds Scenario.afterRequest1).
  { unfold uniqueRequestIds, pooledRequestIds. rewrite afterRequest1_pools.
    simpl. constructor; [intros [] | constructor]. }
  assert (Hget : getPool Scenario.afterRequest1 "pool_1" =
            Some (mkPoolMatch "pool_1" [Scenario.request1]
                    [point_of_location Scenario.pickupA;
                     point_of_location Scenario.dropoffA]
                    (calculateDistance Scenario.pickupA Scenario.dropoffA)
                    30 100 0)).
  { unfold getPool. rewrite afterRequest1_pools. reflexivity. }
  split; [exact Hunique|]. split; [exact Hget|]. split; [|split].
  - exact (proj1 sole_member_removal_deletes_pool _ _ _ _ Hunique Hget eq_refl).
  - apply (proj1 (proj2 sole_member_removal_deletes_pool)).
    intros poolId pool [].
  - apply (proj2 (proj2 sole_member_removal_deletes_pool)).
    now exists [AddRequest "pool_1" Scenario.request1; RemoveRequest "req_1"].
Defined.

Lemma derived_fields_follow_membership_witness :
  (exists joined shrunk,
     findPoolOf "req_2" (pools Scenario.onePoolOfTwo) =
       Some ("pool_1"%string, joined, 1%nat) /\
     removeAt 1 (requests joined) <> [] /\
     getPool (removeFromPool Scenario.onePoolOfTwo "req_2") "pool_1" = Some shrunk /\
     requests shrunk = [Scenario.request1] /\
     totalDistance shrunk =
       Spec.alloc_totalDistance (Spec.allocate (requests shrunk)) /\
     estimatedTime shrunk =
       Spec.alloc_estimatedTime (Spec.allocate (requests shrunk))) /\
  (exists first joined,
     getPool Scenario.afterRequest1 "pool_1" = Some first /\
     getPool (snd (addToExistingPool Scenario.afterRequest1 "pool_1"
                     Scenario.request2)) "pool_1" = Some joined /\
     requests joined = requests first ++ [Scenario.request2] /\
     totalDistance joined =
       Spec.alloc_totalDistance (Spec.allocate (requests joined)) /\
     estimatedTime joined =
       Spec.alloc_estimatedTime (Spec.allocate (requests joined))).
Proof.
  split.
  - destruct onePoolOfTwo_pools as (joined & Hpools & Hreq).
    assert (Hfind : findPoolOf "req_2" (pools Scenario.onePoolOfTwo) =
                    Some ("pool_1"%string, joined, 1%nat)).
    { rewrite Hpools. cbn [findPoolOf]. rewrite Hreq. reflexivity. }
    assert (Hrest : removeAt 1 (requests joined) <> [])
      by (rewrite Hreq; discriminate).
    destruct (proj1 (proj2 derived_fields_follow_membership)
                Scenario.onePoolOfTwo "req_2"%string "pool_1"%string joined 1%nat
                Hfind Hrest)
      as (shrunk & Hget & Hshrunk & _ & Hdist & Htime & _).
    exists joined, shrunk. repeat split; try assumption.
    now rewrite Hshrunk, Hreq.
  - assert (Hget : getPool Scenario.afterRequest1 "pool_1" =
              Some (mkPoolMatch "pool_1" [Scenario.request1]
                      [point_of_location Scenario.pickupA;
                       point_of_location Scenario.dropoffA]
                      (calculateDistance Scenario.pickupA Scenario.dropoffA)
                      30 100 0)).
    { unfold getPool. rewrite afterRequest1_pools. reflexivity. }
    destruct (proj2 (proj2 derived_fields_follow_membership)
                Scenario.afterRequest1 "pool_1"%string _ Scenario.request2 Hget)
      as (joined & Hjoined & Hreq & _ & Hdist & Htime).
    eexists. exists joined. split; [exact Hget|]. now repeat split.
Defined.

(** * Further properties of the service *)

(** ** Distances *)

Lemma haversineTerm_sym (p q : LatLng) : haversineTerm p q = haversineTerm q p.
Proof.
  unfold haversineTerm. cbv zeta.
  replace ((lat p - lat q) * PI / 180 / 2)
    with (- ((lat q - lat p) * PI / 180 / 2)) by lra.
  replace ((lng p - lng q) * PI / 180 / 2)
    with (- ((lng q - lng p) * PI / 180 / 2)) by lra.
  rewrite !sin_neg. ring.
Qed.

Lemma calculateDistance_sym (p q : LatLng) :
  calculateDistance p q = calculateDistance q p.
Proof.
  rewrite !calculateDistance_haversineTerm. now rewrite haversineTerm_sym.
Qed.

(** X1.  The distance from one point to another is the distance back. *)
Theorem distance_is_symmetric (point1 point2 : LatLng) :
  calculateDistance point1 point2 = calculateDistance point2 point1.
Proof. apply calculateDistance_sym. Qed.


(** ** Bearings *)


Lemma rem_360_of_360 : JsMath.rem 360 360 = 0.
Proof.
  unfold JsMath.rem, JsMath.trunc.
  destruct (Rle_dec 0 (360 / 360)) as [_ | Hneg]; [|exfalso; apply Hneg; lra].
  rewrite <- (Int_part_spec (360 / 360) 1%Z) by (simpl; lra).
  simpl. lra.
Qed.

Lemma rem_360_of_540 : JsMath.rem 540 360 = 180.
Proof.
  unfold JsMath.rem, JsMath.trunc.
  destruct (Rle_dec 0 (540 / 360)) as [_ | Hneg]; [|exfalso; apply Hneg; lra].
  rewrite <- (Int_part_spec (540 / 360) 1%Z) by (simpl; lra).
  simpl. lra.
Qed.

(** The two arguments [calculateBearing] gives [atan2] along a meridian. *)
Lemma bearing_arguments_on_meridian (p q : LatLng) :
  lng p = lng q ->
  calculateBearing p q =
  JsMath.rem
    (JsMath.atan2 0 (sin (lat q * PI / 180 - lat p * PI / 180)) * 180 / PI + 360)
    360.
Proof.
  intros Hlng. unfold calculateBearing. cbv zeta. rewrite Hlng.
  replace ((lng q - lng q) * PI / 180) with 0 by lra.
  rewrite sin_0, cos_0, Rmult_0_l, Rmult_1_r.
  replace (cos (lat p * PI / 180) * sin (lat q * PI / 180) -
           sin (lat p * PI / 180) * cos (lat q * PI / 180))
    with (sin (lat q * PI / 180 - lat p * PI / 180))
    by (rewrite sin_minus; ring).
  reflexivity.
Qed.

Lemma calculateBearing_north (p q : LatLng) :
  lng p = lng q ->
  -90 <= lat p <= 90 -> -90 <= lat q <= 90 ->
  lat p < lat q -> calculateBearing p q = 0.
Proof.
  intros Hlng H1 H2 Hnorth. pose proof PI_RGT_0 as Hpi.
  rewrite (bearing_arguments_on_meridian _ _ Hlng).
  set (d := lat q * PI / 180 - lat p * PI / 180).
  assert (Hd : 0 < d <= PI) by (unfold d; split; nra).
  assert (Hsin : 0 <= sin d) by (apply sin_ge_0; lra).
  assert (Hatan : JsMath.atan2 0 (sin d) = 0).
  { unfold JsMath.atan2.
    destruct (Rlt_dec 0 (sin d)).
    - unfold Rdiv. now rewrite Rmult_0_l, atan_0.
    - destruct (Rlt_dec (sin d) 0); [lra|].
      destruct (Rlt_dec 0 0); [lra|]. destruct (Rlt_dec 0 0); [lra|reflexivity]. }
  rewrite Hatan.
  replace (0 * 180 / PI + 360) with 360 by (unfold Rdiv; ring).
  apply rem_360_of_360.
Qed.

Lemma calculateBearing_south (p q : LatLng) :
  lng p = lng q ->
  -90 <= lat p <= 90 -> -90 <= lat q <= 90 ->
  lat q < lat p -> lat p - lat q < 180 -> calculateBearing p q = 180.
Proof.
  intros Hlng H1 H2 Hsouth Hpoles. pose proof PI_RGT_0 as Hpi.
  rewrite (bearing_arguments_on_meridian _ _ Hlng).
  set (d := lat q * PI / 180 - lat p * PI / 180).
  assert (Hd : - PI < d < 0) by (unfold d; split; nra).
  assert (Hsin : sin d < 0) by (apply sin_lt_0_var; lra).
  assert (Hatan : JsMath.atan2 0 (sin d) = PI).
  { unfold JsMath.atan2.
    destruct (Rlt_dec 0 (sin d)); [lra|].
    destruct (Rlt_dec (sin d) 0); [|lra].
    destruct (Rle_dec 0 0); [|lra].
    unfold Rdiv. rewrite Rmult_0_l, atan_0. ring. }
  rewrite Hatan.
  replace (PI * 180 / PI + 360) with 540 by (field; lra).
  apply rem_360_of_540.
Qed.


(** ** Scores *)

Lemma calculateDirectionSimilarity_sym (req1 req2 : PoolRequest) :
  calculateDirectionSimilarity req1 req2 = calculateDirectionSimilarity req2 req1.
Proof.
  unfold calculateDirectionSimilarity, JsMath.abs. cbv zeta.
  now rewrite Rabs_minus_sym.
Qed.

Lemma requestScore_sym (a b : PoolRequest) : requestScore a b = requestScore b a.
Proof.
  unfold requestScore. cbv zeta.
  rewrite (calculateDistance_sym (pickup a) (pickup b)).
  rewrite (calculateDistance_sym (dropoff a) (dropoff b)).
  now rewrite calculateDirectionSimilarity_sym.
Qed.

Lemma calculateRouteCompatibility_single (pool : PoolMatch) (member request : PoolRequest) :
  requests pool = [member] ->
  calculateRouteCompatibility pool request = requestScore member request.
Proof.
  intros Hsole. unfold calculateRouteCompatibility.
  rewrite compatibilityLoop_spec, Hsole.
  cbn [Spec.sumComposite length Nat.add Nat.ltb Nat.leb INR].
  rewrite <- requestScore_composite. lra.
Qed.

(** X6.  Between two single-member pools the score does not depend on which
    request is the member and which the candidate. *)
Theorem single_member_score_is_symmetric (poolA poolB : PoolMatch)
    (a b : PoolRequest) :
  requests poolA = [a] ->
  requests poolB = [b] ->
  calculateRouteCompatibility poolA b = calculateRouteCompatibility poolB a.
Proof.
  intros HA HB.
  rewrite (calculateRouteCompatibility_single _ _ _ HA).
  rewrite (calculateRouteCompatibility_single _ _ _ HB).
  apply requestScore_sym.
Qed.

Lemma calculateBearing_ext (p p' q q' : LatLng) :
  sameCoordinates p p' -> sameCoordinates q q' ->
  calculateBearing p q = calculateBearing p' q'.
Proof.
  intros [Hlat Hlng] [Hlat' Hlng']. unfold calculateBearing. cbv zeta.
  now rewrite Hlat, Hlng, Hlat', Hlng'.
Qed.

Lemma requestScore_sameTrip (member request : PoolRequest) :
  sameTrip member request -> requestScore member request = 1.
Proof.
  intros [[Hplat Hplng] [Hdlat Hdlng]]. unfold requestScore. cbv zeta.
  rewrite (calculateDistance_same (pickup member) (pickup request)) by assumption.
  rewrite (calculateDistance_same (dropoff member) (dropoff request)) by assumption.
  unfold calculateDirectionSimilarity, JsMath.abs, JsMath.max. cbv zeta.
  rewrite (calculateBearing_ext (pickup member) (pickup request)
             (dropoff member) (dropoff request)) by (split; assumption).
  rewrite Rminus_diag, Rabs_R0.
  destruct (Rgt_dec 0 180); [lra|].
  replace (1 - 0 / 5) with 1 by lra. replace (1 - 0 / 90) with 1 by lra.
  rewrite Rmax_right by lra. lra.
Qed.

(** A bound on every member's score is a bound on the score of the pool. *)
Lemma calculateRouteCompatibility_le (pool : PoolMatch) (request : PoolRequest)
    (bound : R) :
  0 <= bound ->
  Forall (fun member => requestScore member request <= bound) (requests pool) ->
  calculateRouteCompatibility pool request <= bound.
Proof.
  intros Hbound Hall. unfold calculateRouteCompatibility.
  rewrite compatibilityLoop_spec. rewrite Rplus_0_l. cbn [Nat.add].
  assert (Hsum : Spec.sumComposite (requests pool) request <=
                 bound * INR (length (requests pool))).
  { induction Hall as [|m ms Hm _ IH]; cbn [Spec.sumComposite length].
    - simpl. lra.
    - rewrite S_INR, <- requestScore_composite. lra. }
  destruct (0 <? length (requests pool))%nat eqn:Hpos; [|lra].
  apply Nat.ltb_lt in Hpos.
  assert (Hn : 0 < INR (length (requests pool))) by (apply lt_0_INR; assumption).
  apply Rmult_le_reg_r with (INR (length (requests pool))); [assumption|].
  unfold Rdiv. rewrite Rmult_assoc, Rinv_l by lra. lra.
Qed.

Lemma sumComposite_sameTrip (members : list PoolRequest) (candidate : PoolRequest) :
  Forall (fun member => sameTrip member candidate) members ->
  Spec.sumComposite members candidate = INR (length members).
Proof.
  induction 1 as [|m ms Hm _ IH]; cbn [Spec.sumComposite length].
  - reflexivity.
  - rewrite S_INR, <- requestScore_composite, (requestScore_sameTrip _ _ Hm), IH.
    lra.
Qed.




(** ** Routes *)

(** The route of two requests or more: the sorted pickups, then the dropoffs
    nearest first. *)
Lemma optimizeRoute_several (requests : list PoolRequest) :
  (1 < length requests)%nat ->
  exists dropoffs,
    optimizeRoute requests =
      map pickupPoint (sortByCreatedAt requests) ++ dropoffs /\
    Permutation (map dropoffPoint requests) dropoffs.
Proof.
  intros Hlen.
  destruct requests as [|r1 [|r2 rest]]; simpl in Hlen; try lia.
  set (requests := r1 :: r2 :: rest).
  change (optimizeRoute requests) with
    (match rev (map pickupPoint (sortByCreatedAt requests)) with
     | [] => map pickupPoint (sortByCreatedAt requests)
     | currentLocation :: _ =>
         visitDropoffs currentLocation (map dropoffPoint requests)
           (map pickupPoint (sortByCreatedAt requests))
     end).
  destruct (rev (map pickupPoint (sortByCreatedAt requests)))
    as [|lastPickup earlier] eqn:Hrev.
  - exfalso.
    apply (f_equal (@length _)) in Hrev.
    rewrite length_rev, length_map in Hrev.
    rewrite <- (Permutation_length (sortByCreatedAt_perm requests)) in Hrev.
    discriminate.
  - destruct (visitDropoffs_spec (length (map dropoffPoint requests)) lastPickup
                (map dropoffPoint requests)
                (map pickupPoint (sortByCreatedAt requests)) eq_refl)
      as (dropoffs & Heq & Hnn).
    exists dropoffs. split; [exact Heq|].
    exact (nearestNeighbour_perm _ _ _ Hnn).
Qed.

(** X10.  A route has two stops for each request, and the route of two
    requests or more holds the pickup and the dropoff of every request, each
    once. *)
Theorem route_visits_every_stop_once (requests : list PoolRequest) :
  length (optimizeRoute requests) = (2 * length requests)%nat /\
  ((1 < length requests)%nat ->
   Permutation (map pickupPoint requests ++ map dropoffPoint requests)
     (optimizeRoute requests)).
Proof.
  assert (Hperm : (1 < length requests)%nat ->
            Permutation (map pickupPoint requests ++ map dropoffPoint requests)
              (optimizeRoute requests)).
  { intros Hlen.
    destruct (optimizeRoute_several requests Hlen) as (dropoffs & -> & Hdrop).
    apply Permutation_app; [|exact Hdrop].
    apply Permutation_map, sortByCreatedAt_perm. }
  split; [|exact Hperm].
  destruct requests as [|r1 [|r2 rest]]; [reflexivity | reflexivity |].
  rewrite <- (Permutation_length (Hperm ltac:(simpl; lia))).
  rewrite length_app, !length_map. lia.
Qed.

Lemma sortByCreatedAt_sorted_id (requests : list PoolRequest) :
  StronglySorted createdNoLater requests -> sortByCreatedAt requests = requests.
Proof.
  induction 1 as [|r rest Hsorted IH Hall]; [reflexivity|].
  cbn [sortByCreatedAt]. rewrite IH.
  destruct rest as [|x rest']; [reflexivity|].
  cbn [insertByCreatedAt].
  apply Forall_inv in Hall. unfold createdNoLater in Hall.
  apply Z.leb_le in Hall. now rewrite Hall.
Qed.

(** X11.  When the members of a pool of two or more are listed in order of
    creation, the route starts with their pickups in that order and goes on
    with their dropoffs. *)
Theorem pickups_follow_membership_order (requests : list PoolRequest) :
  (1 < length requests)%nat ->
  StronglySorted createdNoLater requests ->
  exists dropoffs,
    optimizeRoute requests = map pickupPoint requests ++ dropoffs /\
    Permutation (map dropoffPoint requests) dropoffs.
Proof.
  intros Hlen Hsorted.
  destruct (optimizeRoute_several requests Hlen) as (dropoffs & Heq & Hperm).
  rewrite (sortByCreatedAt_sorted_id _ Hsorted) in Heq.
  now exists dropoffs.
Qed.

(** ** More on maps *)

Section JsMapMoreFacts.
Context {V : Type}.
Implicit Types (m : JsMap V) (k : string) (v : V).

Lemma map_get_delete_other m k k' :
  k <> k' -> map_get k' (map_delete k m) = map_get k' m.
Proof.
  intros Hne. induction m as [|[k0 v0] m IH]; simpl; [reflexivity|].
  destruct (String.eqb k0 k) eqn:E; simpl.
  - apply String.eqb_eq in E. subst k0.
    destruct (String.eqb k k') eqn:E'; [|assumption].
    apply String.eqb_eq in E'. contradiction.
  - now rewrite IH.
Qed.

Lemma map_get_None_keys m k : map_get k m = None <-> ~ In k (map_keys m).
Proof.
  unfold map_keys. induction m as [|[k0 v0] m IH]; simpl.
  - split; [intros _ [] | reflexivity].
  - destruct (String.eqb k0 k) eqn:E.
    + apply String.eqb_eq in E. split; [discriminate|].
      intros H. exfalso. apply H. now left.
    + apply String.eqb_neq in E. rewrite IH. split.
      * intros H [Heq | Hin]; [contradiction | now apply H].
      * intros H Hin. apply H. now right.
Qed.

(** [set] on a new key appends the entry. *)
Lemma map_set_fresh m k v : map_get k m = None -> map_set k v m = m ++ [(k, v)].
Proof.
  induction m as [|[k0 v0] m IH]; simpl; [reflexivity|].
  destruct (String.eqb k0 k); [discriminate|].
  intros H. now rewrite IH.
Qed.

(** [set] on a key in use replaces the value of its entry, in place. *)
Lemma map_set_present m k v old :
  map_get k m = Some old ->
  exists before after,
    m = before ++ (k, old) :: after /\
    ~ In k (map_keys before) /\
    map_set k v m = before ++ (k, v) :: after.
Proof.
  induction m as [|[k0 v0] m IH]; simpl; [discriminate|].
  destruct (String.eqb k0 k) eqn:E.
  - apply String.eqb_eq in E. subst k0. intros [= ->].
    exists [], m. repeat split. intros [].
  - apply String.eqb_neq in E. intros H.
    destruct (IH H) as (before & after & -> & Hnotin & Hset).
    exists ((k0, v0) :: before), after. split; [reflexivity|]. split.
    + simpl. intros [Heq | Hin]; [contradiction | now apply Hnotin].
    + simpl. now rewrite Hset.
Qed.

Lemma map_set_at (before after : JsMap V) k v old :
  ~ In k (map_keys before) ->
  map_set k v (before ++ (k, old) :: after) = before ++ (k, v) :: after.
Proof.
  induction before as [|[k0 v0] before IH]; simpl; intros Hnotin.
  - now rewrite String.eqb_refl.
  - destruct (String.eqb k0 k) eqn:E.
    + apply String.eqb_eq in E. exfalso. apply Hnotin. now left.
    + rewrite IH; [reflexivity|]. intros Hin. apply Hnotin. now right.
Qed.

Lemma map_delete_at (before after : JsMap V) k old :
  ~ In k (map_keys before) -> ~ In k (map_keys after) ->
  map_delete k (before ++ (k, old) :: after) = before ++ after.
Proof.
  intros Hb Ha. unfold map_delete. rewrite filter_app. cbn [filter fst].
  rewrite String.eqb_refl. cbn [negb].
  fold (map_delete k before). fold (map_delete k after).
  rewrite !map_delete_absent; [reflexivity | |]; now apply map_get_None_keys.
Qed.

Lemma map_delete_set_fresh m k v :
  map_get k m = None -> map_delete k (map_set k v m) = m.
Proof.
  intros Hfresh. rewrite (map_set_fresh _ _ _ Hfresh).
  rewrite <- (app_nil_r m) at 2.
  apply (map_delete_at m [] k v); [now apply map_get_None_keys | intros []].
Qed.

End JsMapMoreFacts.

Lemma findPoolOf_app (requestId : string) (m1 m2 : JsMap PoolMatch) :
  findPoolOf requestId (m1 ++ m2) =
  match findPoolOf requestId m1 with
  | Some found => Some found
  | None => findPoolOf requestId m2
  end.
Proof.
  induction m1 as [|[k p] m1 IH]; simpl; [reflexivity|].
  now destruct (findIndex requestId (requests p)).
Qed.

Lemma unknownRequest_ids (this : PoolingService) (requestId : string) :
  unknownRequest this requestId <-> ~ In requestId (pooledRequestIds this).
Proof.
  unfold unknownRequest, pooledRequestIds. split.
  - intros H Hin. apply in_flat_map in Hin as [[k p] [Hentry Hid]].
    exact (H k p Hentry Hid).
  - intros H k p Hentry Hid. apply H. apply in_flat_map. now exists (k, p).
Qed.

Lemma reachable_uniquePoolIds (this : PoolingService) :
  reachable this -> uniquePoolIds this.
Proof.
  intros [ops ->]. unfold performAll.
  assert (H : forall start, uniquePoolIds start ->
            uniquePoolIds (fold_left perform ops start)).
  { induction ops as [|op ops IH]; intros start Hstart; [exact Hstart|].
    cbn [fold_left]. apply IH. now apply perform_uniquePoolIds. }
  apply H. constructor.
Qed.

(** ** The pools the service reaches *)

Lemma findIndex_single (requestId : string) (r : PoolRequest) (index : nat) :
  findIndex requestId [r] = Some index -> index = 0%nat.
Proof.
  simpl. destruct (String.eqb (id r) requestId); [|discriminate]. congruence.
Qed.

Lemma perform_asCreated (this : PoolingService) (op : Operation) :
  (forall poolId pool, In (poolId, pool) (pools this) -> asCreated poolId pool) ->
  forall poolId pool, In (poolId, pool) (pools (perform this op)) ->
    asCreated poolId pool.
Proof.
  intros Hthis k p Hin. destruct op as [newPoolId request | requestId];
    cbn [perform] in Hin.
  - rewrite addPoolRequest_pools in Hin.
    apply In_map_set in Hin as [[-> ->] | Hin]; [now exists request | eauto].
  - unfold removeFromPool in Hin.
    destruct (findPoolOf requestId (pools this)) as [[[poolId pool] index]|]
      eqn:Hfind; [|eauto].
    apply findPoolOf_Some in Hfind as (Hpool & Hidx & _).
    destruct (Hthis _ _ Hpool) as [r ->]. cbn [requests] in *.
    apply findIndex_single in Hidx. subst index.
    cbv zeta in Hin. cbn [removeAt firstn skipn app length Nat.eqb pools] in Hin.
    apply In_map_delete in Hin as [Hin _]. eauto.
Qed.

Lemma reachable_asCreated (this : PoolingService) :
  reachable this ->
  forall poolId pool, In (poolId, pool) (pools this) -> asCreated poolId pool.
Proof.
  intros [ops ->]. unfold performAll.
  assert (H : forall start,
            (forall k p, In (k, p) (pools start) -> asCreated k p) ->
            forall k p, In (k, p) (pools (fold_left perform ops start)) ->
              asCreated k p).
  { induction ops as [|op ops IH]; intros start Hstart; [exact Hstart|].
    cbn [fold_left]. apply IH. now apply perform_asCreated. }
  apply H. intros ? ? [].
Qed.

Lemma map_get_of_In {V : Type} (m : JsMap V) (k : string) (v : V) :
  NoDup (map_keys m) -> In (k, v) m -> map_get k m = Some v.
Proof.
  unfold map_keys. induction m as [|[k0 v0] m IH]; simpl; intros Hnd Hin;
    [contradiction|].
  apply NoDup_cons_iff in Hnd as [Hnotin Hnd].
  destruct Hin as [[= -> ->] | Hin].
  - now rewrite String.eqb_refl.
  - destruct (String.eqb k0 k) eqn:E; [|now apply IH].
    apply String.eqb_eq in E. subst k0. exfalso. apply Hnotin.
    apply in_map_iff. now exists (k, v).
Qed.

(** X13.  Whatever requests are added and removed, every pool of the
    registry is as [createNewPool] built it: it is stored under its own
    identifier, holds exactly one request, its route and distance are those
    of that request, and it carries the time 30, the cost 100 and the
    savings 0.  The service never holds a pool of two. *)
Theorem reachable_pools_hold_one_request (this : PoolingService)
    (pool : PoolMatch) :
  reachable this ->
  In pool (getActivePools this) ->
  getPool this (pool_id pool) = Some pool /\
  length (requests pool) = 1%nat /\
  route pool = optimizeRoute (requests pool) /\
  totalDistance pool = calculateTotalDistance (route pool) /\
  estimatedTime pool = 30 /\ costPerCustomer pool = 100 /\ savings pool = 0.
Proof.
  intros Hreach Hin.
  unfold getActivePools, map_values in Hin.
  apply in_map_iff in Hin as [[k p] [Heq Hin]]. simpl in Heq. subst p.
  destruct (reachable_asCreated this Hreach _ _ Hin) as [r Hpool].
  split.
  - unfold getPool. apply map_get_of_In.
    + now apply reachable_uniquePoolIds.
    + now rewrite Hpool in *.
  - rewrite Hpool. cbn. repeat split; try reflexivity.
    unfold calculateTotalDistance. simpl.
    change (calculateDistance (point_of_location (pickup r))
              (point_of_location (dropoff r)))
      with (calculateDistance (pickup r) (dropoff r)). lra.
Qed.

(** ** Adding a request *)

(** X14.  [addPoolRequest] never throws, and it records the request in
    [activeRequests] under its identifier without touching the other
    entries.  [addToExistingPool], on an identifier no pool is stored under,
    throws "Pool not found" and changes nothing. *)
Theorem adding_records_the_request (this : PoolingService) (newPoolId : string)
    (request : PoolRequest) :
  fst (addPoolRequest this newPoolId request) = Returned newPoolId /\
  map_get (id request)
    (activeRequests (snd (addPoolRequest this newPoolId request))) = Some request /\
  (forall other, other <> id request ->
     map_get other (activeRequests (snd (addPoolRequest this newPoolId request))) =
     map_get other (activeRequests this)) /\
  (forall poolId, getPool this poolId = None ->
     addToExistingPool this poolId request = (Thrown "Pool not found", this)).
Proof.
  rewrite addPoolRequest_creates. cbn [fst snd createNewPool activeRequests].
  split; [reflexivity|]. split; [apply map_get_set_same|]. split.
  - intros other Hother. apply map_get_set_other. congruence.
  - intros poolId Hnone. unfold addToExistingPool.
    unfold getPool in Hnone. now rewrite Hnone.
Qed.

(** X15.  A request added under a pool identifier not in use opens a pool at
    the end of the iteration order, after every pool there was; under an
    identifier in use its pool takes the place of the pool stored there, and
    the number of pools stays the same. *)
Theorem new_pool_goes_last (this : PoolingService) (newPoolId : string)
    (request : PoolRequest) :
  exists created,
    requests created = [request] /\
    getPool (snd (addPoolRequest this newPoolId request)) newPoolId = Some created /\
    (getPool this newPoolId = None ->
     getActivePools (snd (addPoolRequest this newPoolId request)) =
     getActivePools this ++ [created]) /\
    (getPool this newPoolId <> None ->
     length (getActivePools (snd (addPoolRequest this newPoolId request))) =
     length (getActivePools this)).
Proof.
  eexists. split; [|split; [|split]].
  - shelve.
  - unfold getPool. rewrite addPoolRequest_pools. apply map_get_set_same.
  - intros Hfresh. unfold getActivePools, map_values, getPool in *.
    rewrite addPoolRequest_pools, (map_set_fresh _ _ _ Hfresh), map_app.
    reflexivity.
  - intros Hused. unfold getActivePools, map_values, getPool in *.
    rewrite addPoolRequest_pools.
    destruct (map_get newPoolId (pools this)) as [old|] eqn:Hget;
      [|contradiction].
    destruct (map_set_present (pools this) newPoolId
                (mkPoolMatch newPoolId [request]
                   [point_of_location (pickup request);
                    point_of_location (dropoff request)]
                   (calculateDistance (pickup request) (dropoff request))
                   30 100 0) old Hget)
      as (before & after & Hm & _ & ->).
    rewrite Hm, !length_map, !length_app. reflexivity.
  Unshelve. reflexivity.
Qed.

(** ** Removing a request *)

Lemma removeFromPool_after_add (this : PoolingService) (newPoolId : string)
    (request : PoolRequest) :
  unknownRequest this (id request) ->
  getPool this newPoolId = None ->
  removeFromPool (snd (addPoolRequest this newPoolId request)) (id request) =
  mkPoolingService
    (map_delete (id request) (map_set (id request) request (activeRequests this)))
    (pools this).
Proof.
  intros Hunknown Hfresh. unfold getPool in Hfresh.
  apply findPoolOf_None in Hunknown.
  rewrite addPoolRequest_creates. unfold removeFromPool, createNewPool.
  cbn [snd pools activeRequests].
  rewrite (map_set_fresh _ _ _ Hfresh) at 1.
  rewrite findPoolOf_app, Hunknown.
  cbn [findPoolOf requests findIndex]. rewrite String.eqb_refl.
  cbv zeta. cbn [requests removeAt firstn skipn app length Nat.eqb].
  now rewrite (map_delete_set_fresh _ _ _ Hfresh).
Qed.

(** X16.  Adding a request no pool holds, under a pool identifier not in
    use, and removing it again leaves the pools as they were; the whole
    service is as it was when the request was not active either. *)
Theorem add_then_remove_restores_the_pools (this : PoolingService)
    (newPoolId : string) (request : PoolRequest) :
  unknownRequest this (id request) ->
  getPool this newPoolId = None ->
  pools (removeFromPool (snd (addPoolRequest this newPoolId request)) (id request)) =
    pools this /\
  (map_get (id request) (activeRequests this) = None ->
   removeFromPool (snd (addPoolRequest this newPoolId request)) (id request) = this).
Proof.
  intros Hunknown Hfresh.
  rewrite (removeFromPool_after_add _ _ _ Hunknown Hfresh).
  split; [reflexivity|].
  intros Hinactive. rewrite (map_delete_set_fresh _ _ _ Hinactive).
  now destruct this.
Qed.

Lemma findIndex_first (requestId : string) (rs : list PoolRequest) (index : nat) :
  findIndex requestId rs = Some index ->
  forall j r, (j < index)%nat -> nth_error rs j = Some r -> id r <> requestId.
Proof.
  revert index. induction rs as [|r0 rs IH]; intros index; simpl; [discriminate|].
  destruct (String.eqb (id r0) requestId) eqn:E.
  - intros [= <-] j r Hj. lia.
  - apply String.eqb_neq in E.
    destruct (findIndex requestId rs) as [i|]; simpl; [|discriminate].
    intros [= <-] [|j] r Hj Hnth; simpl in Hnth.
    + now injection Hnth as <-.
    + apply (IH i eq_refl j r); [lia | assumption].
Qed.

(** X17.  [removeFromPool] takes one request, the first with the identifier,
    out of the first pool that holds one, deleting that pool if it held no
    other; every other pool is as before, and the identifier is no longer
    active. *)
Theorem removal_touches_one_pool (this : PoolingService) (requestId poolId : string)
    (pool : PoolMatch) (index : nat) :
  findPoolOf requestId (pools this) = Some (poolId, pool, index) ->
  (exists before after,
     pools this = before ++ (poolId, pool) :: after /\
     forall k p, In (k, p) before -> ~ In requestId (map id (requests p))) /\
  (exists removed,
     nth_error (requests pool) index = Some removed /\ id removed = requestId /\
     forall j r, (j < index)%nat -> nth_error (requests pool) j = Some r ->
       id r <> requestId) /\
  (getPool (removeFromPool this requestId) poolId = None /\
   removeAt index (requests pool) = [] \/
   exists shrunk,
     getPool (removeFromPool this requestId) poolId = Some shrunk /\
     requests shrunk = removeAt index (requests pool) /\
     pool_id shrunk = pool_id pool) /\
  (forall other, other <> poolId ->
     getPool (removeFromPool this requestId) other = getPool this other) /\
  map_get requestId (activeRequests (removeFromPool this requestId)) = None.
Proof.
  intros Hfind.
  pose proof (findPoolOf_Some _ _ _ _ _ Hfind) as (_ & Hidx & Hsplit).
  split; [exact Hsplit|].
  split.
  { destruct (findIndex_Some _ _ _ Hidx) as (removed & Hnth & Hid).
    exists removed. split; [exact Hnth|]. split; [exact Hid|].
    now apply findIndex_first. }
  unfold removeFromPool, getPool. rewrite Hfind. cbv zeta.
  destruct (length (removeAt index (requests pool)) =? 0)%nat eqn:Hlen;
    cbn [pools activeRequests].
  - apply Nat.eqb_eq, length_zero_iff_nil in Hlen.
    split; [left; split; [apply map_get_delete_same | exact Hlen]|].
    split; [|apply map_get_delete_same].
    intros other Hother. apply map_get_delete_other. congruence.
  - split; [right; eexists; split; [apply map_get_set_same | split; reflexivity]|].
    split; [|apply map_get_delete_same].
    intros other Hother. apply map_get_set_other. congruence.
Qed.

(** ** The identifiers of the pooled requests *)

Lemma removeAt_split {A : Type} (l1 l2 : list A) (x : A) :
  removeAt (length l1) (l1 ++ x :: l2) = l1 ++ l2.
Proof.
  unfold removeAt.
  rewrite firstn_app, firstn_all, Nat.sub_diag, app_nil_r.
  replace (S (length l1)) with (length (l1 ++ [x]))
    by (rewrite length_app; simpl; lia).
  replace (l1 ++ x :: l2) with ((l1 ++ [x]) ++ l2)
    by (rewrite <- app_assoc; reflexivity).
  rewrite skipn_app, skipn_all, Nat.sub_diag. reflexivity.
Qed.

(** Where a pool holds the identifier, [removeFromPool] takes one occurrence
    of it out of the identifiers of the pooled requests. *)
Lemma removeFromPool_ids (this : PoolingService) (requestId : string) :
  uniquePoolIds this ->
  In requestId (pooledRequestIds this) ->
  exists l1 l2,
    pooledRequestIds this = l1 ++ requestId :: l2 /\
    pooledRequestIds (removeFromPool this requestId) = l1 ++ l2.
Proof.
  intros Hkeys Hheld.
  destruct (findPoolOf requestId (pools this)) as [[[poolId pool] index]|]
    eqn:Hfind.
  2:{ exfalso.
      pose proof (proj1 (findPoolOf_None _ _) Hfind) as Hunknown.
      exact (proj1 (unknownRequest_ids this requestId) Hunknown Hheld). }
  pose proof (findPoolOf_Some _ _ _ _ _ Hfind)
    as (_ & Hidx & before & after & Hpools & _).
  destruct (findIndex_Some _ _ _ Hidx) as (removed & Hnth & Hid).
  apply nth_error_split in Hnth as (m1 & m2 & Hreq & Hlen).
  assert (Hrest : removeAt index (requests pool) = m1 ++ m2)
    by (rewrite Hreq, <- Hlen; apply removeAt_split).
  unfold uniquePoolIds, map_keys in Hkeys. rewrite Hpools, map_app in Hkeys.
  cbn [map fst] in Hkeys. apply NoDup_remove_2 in Hkeys.
  assert (Hb : ~ In poolId (map_keys before))
    by (intros H; apply Hkeys, in_or_app; now left).
  assert (Ha : ~ In poolId (map_keys after))
    by (intros H; apply Hkeys, in_or_app; now right).
  exists (flat_map (fun e => map id (requests (snd e))) before ++ map id m1),
         (map id m2 ++ flat_map (fun e => map id (requests (snd e))) after).
  split.
  - unfold pooledRequestIds. rewrite Hpools, flat_map_app. cbn [flat_map snd].
    rewrite Hreq, map_app. cbn [map]. rewrite Hid, <- !app_assoc. reflexivity.
  - unfold pooledRequestIds, removeFromPool. rewrite Hfind. cbv zeta.
    rewrite Hrest, Hpools.
    destruct (length (m1 ++ m2) =? 0)%nat eqn:Hempty; cbn [pools].
    + apply Nat.eqb_eq, length_zero_iff_nil, app_eq_nil in Hempty as [-> ->].
      rewrite (map_delete_at before after poolId pool Hb Ha), flat_map_app.
      cbn [map]. now rewrite app_nil_r.
    + rewrite (map_set_at before after poolId _ pool Hb), flat_map_app.
      cbn [flat_map snd requests]. rewrite map_app, <- !app_assoc. reflexivity.
Qed.

Lemma removeFromPool_ids_unknown (this : PoolingService) (requestId : string) :
  ~ In requestId (pooledRequestIds this) ->
  pooledRequestIds (removeFromPool this requestId) = pooledRequestIds this.
Proof.
  intros Hnot. apply unknownRequest_ids, findPoolOf_None in Hnot.
  unfold pooledRequestIds, removeFromPool. now rewrite Hnot.
Qed.

(** X18.  In a registry that is a map, removing a request takes exactly one
    request out of the pools when a pool holds the identifier, and none
    otherwise. *)
Theorem removal_takes_one_request (this : PoolingService) (requestId : string) :
  uniquePoolIds this ->
  (In requestId (pooledRequestIds this) ->
   S (pooledCount (removeFromPool this requestId)) = pooledCount this) /\
  (~ In requestId (pooledRequestIds this) ->
   pooledCount (removeFromPool this requestId) = pooledCount this).
Proof.
  intros Hkeys. unfold pooledCount. split.
  - intros Hheld.
    destruct (removeFromPool_ids this requestId Hkeys Hheld)
      as (l1 & l2 & -> & ->).
    rewrite !length_app. simpl. lia.
  - intros Hnot. now rewrite removeFromPool_ids_unknown.
Qed.

Lemma NoDup_app_middle {A : Type} (l1 l2 l3 : list A) :
  NoDup (l1 ++ l2 ++ l3) -> NoDup (l1 ++ l3).
Proof.
  induction l2 as [|x l2 IH]; [trivial|].
  intros H. apply IH. now apply NoDup_remove_1 in H.
Qed.

Lemma NoDup_insert {A : Type} (l1 l2 : list A) (x : A) :
  NoDup (l1 ++ l2) -> ~ In x (l1 ++ l2) -> NoDup (l1 ++ x :: l2).
Proof.
  intros Hnd Hnot.
  apply (Permutation_NoDup (Permutation_middle l1 l2 x)).
  now constructor.
Qed.

Lemma addPoolRequest_uniqueRequestIds (this : PoolingService) (newPoolId : string)
    (request : PoolRequest) :
  uniqueRequestIds this ->
  unknownRequest this (id request) ->
  uniqueRequestIds (snd (addPoolRequest this newPoolId request)).
Proof.
  unfold uniqueRequestIds. intros Hnd Hunknown.
  apply unknownRequest_ids in Hunknown.
  unfold pooledRequestIds in *. rewrite addPoolRequest_pools.
  destruct (map_get newPoolId (pools this)) as [old|] eqn:Hget.
  - destruct (map_set_present (pools this) newPoolId
                (mkPoolMatch newPoolId [request]
                   [point_of_location (pickup request);
                    point_of_location (dropoff request)]
                   (calculateDistance (pickup request) (dropoff request))
                   30 100 0) old Hget)
      as (before & after & Hm & _ & ->).
    rewrite Hm, flat_map_app in Hnd, Hunknown. cbn [flat_map snd] in Hnd, Hunknown.
    rewrite flat_map_app. cbn [flat_map snd requests map app].
    apply NoDup_app_middle in Hnd.
    apply NoDup_insert; [exact Hnd|].
    intros Hin. apply Hunknown.
    apply in_app_or in Hin as [Hin | Hin]; apply in_or_app; [now left|].
    right. apply in_or_app. now right.
  - rewrite (map_set_fresh _ _ _ Hget), flat_map_app.
    cbn [flat_map snd requests map app].
    apply NoDup_insert; rewrite app_nil_r; assumption.
Qed.

(** X19.  In a registry that is a map and whose pooled requests have
    distinct identifiers, both stay so through a removal and through the
    addition of a request whose identifier no pool holds. *)
Theorem distinct_identifiers_are_kept (this : PoolingService) (op : Operation) :
  uniquePoolIds this ->
  uniqueRequestIds this ->
  match op with
  | AddRequest _ request => unknownRequest this (id request)
  | RemoveRequest _ => True
  end ->
  uniquePoolIds (perform this op) /\ uniqueRequestIds (perform this op).
Proof.
  intros Hkeys Hids Hop. split; [now apply perform_uniquePoolIds|].
  destruct op as [newPoolId request | requestId]; cbn [perform].
  - now apply addPoolRequest_uniqueRequestIds.
  - unfold uniqueRequestIds in *.
    destruct (in_dec string_dec requestId (pooledRequestIds this)) as [Hheld | Hnot].
    + destruct (removeFromPool_ids this requestId Hkeys Hheld)
        as (l1 & l2 & Hbefore & ->).
      rewrite Hbefore in Hids. now apply NoDup_remove_1 in Hids.
    + now rewrite removeFromPool_ids_unknown.
Qed.

(** X20.  In a registry that is a map and whose pooled requests have
    distinct identifiers, a removed identifier is held by no pool any more,
    so removing it a second time leaves every pool as the first removal
    left it. *)
Theorem removal_is_idempotent (this : PoolingService) (requestId : string) :
  uniquePoolIds this ->
  uniqueRequestIds this ->
  unknownRequest (removeFromPool this requestId) requestId /\
  pools (removeFromPool (removeFromPool this requestId) requestId) =
    pools (removeFromPool this requestId).
Proof.
  intros Hkeys Hids.
  assert (Hgone : unknownRequest (removeFromPool this requestId) requestId).
  { apply unknownRequest_ids.
    destruct (in_dec string_dec requestId (pooledRequestIds this)) as [Hheld | Hnot].
    - destruct (removeFromPool_ids this requestId Hkeys Hheld)
        as (l1 & l2 & Hbefore & ->).
      unfold uniqueRequestIds in Hids. rewrite Hbefore in Hids.
      now apply NoDup_remove_2 in Hids.
    - now rewrite removeFromPool_ids_unknown. }
  split; [exact Hgone|].
  apply findPoolOf_None in Hgone.
  unfold removeFromPool at 1. now rewrite Hgone.
Qed.

(** ** Requests built from the delivery form *)

(** X21.  Whatever the form and the four random draws, the request
    [createPoolRequest] builds has valid coordinates, within 0.05 degrees of
    (19.0760, 72.8777) at both ends, a customer identifier that is not empty,
    a weight that is not zero and a maximum wait of 30 minutes. *)
Theorem created_request_is_well_formed (deliveryForm : DeliveryForm)
    (requestId : string) (now : Z) (random1 random2 random3 random4 : R) :
  randomDraw random1 -> randomDraw random2 ->
  randomDraw random3 -> randomDraw random4 ->
  let request :=
    createPoolRequest deliveryForm requestId now random1 random2 random3 random4 in
  Spec.validRequest request /\
  (19.026 <= lat (pickup request) < 19.126 /\
   72.8277 <= lng (pickup request) < 72.9277) /\
  (19.026 <= lat (dropoff request) < 19.126 /\
   72.8277 <= lng (dropoff request) < 72.9277) /\
  customerId request <> ""%string /\
  packageWeight request <> 0 /\
  maxWaitTime request = 30 /\
  id request = requestId /\ createdAt request = now.
Proof.
  intros H1 H2 H3 H4 request. subst request. unfold randomDraw in *.
  unfold createPoolRequest, Spec.validRequest, Spec.validLatLng. cbn.
  split; [repeat split; lra|].
  split; [repeat split; lra|].
  split; [repeat split; lra|].
  split.
  - unfold stringOr. destruct (form_customerId deliveryForm) as [s|]; [|discriminate].
    destruct (String.eqb s "") eqn:E; [discriminate|].
    now apply String.eqb_neq in E.
  - split; [|repeat split].
    unfold numberOr. destruct (form_weight deliveryForm) as [x|]; [|lra].
    destruct (Req_dec_T x 0); [lra | assumption].
Qed.

(** ** Savings *)

Lemma soloCost_fold (members : list PoolRequest) :
  forall start,
    fold_left
      (fun totalIndividualCost request =>
         totalIndividualCost +
         (50 + calculateDistance (pickup request) (dropoff request) * 10))
      members start =
    start + Spec.sumSoloCost members.
Proof.
  induction members as [|r members IH]; intros start; simpl.
  - lra.
  - rewrite IH. unfold Spec.soloCost. lra.
Qed.

(** The savings of a pool of several: what its members would pay alone less
    what they pay together. *)
Lemma calculateSavings_spec (pool : PoolMatch) :
  calculateSavings pool =
  if (length (requests pool) =? 1)%nat then 0
  else Spec.sumSoloCost (requests pool) -
       costPerCustomer pool * INR (length (requests pool)).
Proof.
  unfold calculateSavings. cbv zeta.
  destruct (length (requests pool) =? 1)%nat; [reflexivity|].
  rewrite soloCost_fold. lra.
Qed.

(** X22.  After a removal that leaves a pool with members, the savings the
    pool records are 0 for a single member and otherwise the solo fares of
    the members, 50 plus 10 per km each, less 10 per km of the pool's route:
    the pool itself is charged no base fare. *)
Theorem savings_after_removal (this : PoolingService) (requestId poolId : string)
    (pool : PoolMatch) (index : nat) :
  findPoolOf requestId (pools this) = Some (poolId, pool, index) ->
  removeAt index (requests pool) <> [] ->
  exists shrunk,
    getPool (removeFromPool this requestId) poolId = Some shrunk /\
    requests shrunk = removeAt index (requests pool) /\
    savings shrunk =
      if (length (requests shrunk) =? 1)%nat then 0
      else Spec.sumSoloCost (requests shrunk) - totalDistance shrunk * 10.
Proof.
  intros Hfind Hrest.
  destruct (removeFromPool_shrunk this requestId poolId pool index Hfind Hrest)
    as (shrunk & Hget & Hreq & _ & _ & _ & Hcost & Hsavings & _).
  exists shrunk. split; [exact Hget|]. split; [exact Hreq|].
  rewrite Hsavings, calculateSavings_spec.
  destruct (length (requests shrunk) =? 1)%nat; [reflexivity|].
  rewrite Hcost.
  assert (Hn : 0 < INR (length (requests shrunk))).
  { apply lt_0_INR. rewrite Hreq.
    destruct (removeAt index (requests pool)); [contradiction | simpl; lia]. }
  field. lra.
Qed.

(** ** The further properties at concrete trips *)

Lemma calculateDistance_half_turn :
  calculateDistance Trips.greenwich Trips.dateline = 6371 * PI.
Proof.
  unfold calculateDistance. cbn [lat lng latlng_of_location Trips.greenwich
    Trips.dateline loc_lat loc_lng]. cbv zeta.
  replace ((0 - 0) * PI / 180 / 2) with 0 by lra.
  replace ((180 - 0) * PI / 180 / 2) with (PI / 2) by lra.
  replace (0 * PI / 180) with 0 by lra.
  rewrite sin_0, cos_0, sin_PI2.
  replace (0 * 0 + 1 * 1 * 1 * 1) with 1 by ring.
  rewrite Rminus_diag, sqrt_1, sqrt_0.
  unfold JsMath.atan2.
  destruct (Rlt_dec 0 0); [lra|]. destruct (Rlt_dec 0 0); [lra|].
  destruct (Rlt_dec 0 1); lra.
Qed.

Lemma heading_northbound : heading Trips.northbound = 0.
Proof.
  unfold heading. apply calculateBearing_north; simpl; lra.
Qed.

Lemma heading_southbound : heading Trips.southbound = 180.
Proof.
  unfold heading. apply calculateBearing_south; simpl; lra.
Qed.

Lemma afterRequest1_reachable : reachable Scenario.afterRequest1.
Proof. now exists [AddRequest "pool_1" Scenario.request1]. Qed.

Lemma afterRequest1_unknown_req_2 :
  unknownRequest Scenario.afterRequest1 (id Scenario.request2).
Proof.
  unfold unknownRequest. rewrite afterRequest1_pools.
  intros poolId pool [[= <- <-] | []] [Hid | []]. discriminate Hid.
Qed.

Lemma afterRequest1_uniqueRequestIds : uniqueRequestIds Scenario.afterRequest1.
Proof.
  unfold uniqueRequestIds, pooledRequestIds. rewrite afterRequest1_pools.
  simpl. constructor; [intros [] | constructor].
Qed.

Lemma afterRequest1_finds_req_1 :
  findPoolOf "req_1" (pools Scenario.afterRequest1) =
  Some ("pool_1"%string,
        mkPoolMatch "pool_1" [Scenario.request1]
          [point_of_location Scenario.pickupA; point_of_location Scenario.dropoffA]
          (calculateDistance Scenario.pickupA Scenario.dropoffA) 30 100 0,
        0%nat).
Proof. rewrite afterRequest1_pools. reflexivity. Qed.



Lemma single_member_score_is_symmetric_witness :
  requests (mkPoolMatch "pool_1" [Scenario.request1] [] 0 30 100 0) =
    [Scenario.request1] /\
  requests (mkPoolMatch "pool_2" [Trips.northbound] [] 0 30 100 0) =
    [Trips.northbound] /\
  calculateRouteCompatibility
    (mkPoolMatch "pool_1" [Scenario.request1] [] 0 30 100 0) Trips.northbound =
  calculateRouteCompatibility
    (mkPoolMatch "pool_2" [Trips.northbound] [] 0 30 100 0) Scenario.request1.
Proof.
  split; [reflexivity|]. split; [reflexivity|].
  exact (single_member_score_is_symmetric
           (mkPoolMatch "pool_1" [Scenario.request1] [] 0 30 100 0)
           (mkPoolMatch "pool_2" [Trips.northbound] [] 0 30 100 0)
           Scenario.request1 Trips.northbound eq_refl eq_refl).
Defined.




Lemma pickups_follow_membership_order_witness :
  (1 < length [Scenario.request1; Scenario.request2])%nat /\
  StronglySorted createdNoLater [Scenario.request1; Scenario.request2] /\
  exists dropoffs,
    optimizeRoute [Scenario.request1; Scenario.request2] =
      map pickupPoint [Scenario.request1; Scenario.request2] ++ dropoffs /\
    Permutation (map dropoffPoint [Scenario.request1; Scenario.request2]) dropoffs.
Proof.
  assert (Hlen : (1 < length [Scenario.request1; Scenario.request2])%nat)
    by (simpl; lia).
  assert (Hsorted :
    StronglySorted createdNoLater [Scenario.request1; Scenario.request2]).
  { repeat constructor. unfold createdNoLater. simpl. lia. }
  split; [exact Hlen|]. split; [exact Hsorted|].
  exact (pickups_follow_membership_order _ Hlen Hsorted).
Defined.

Lemma reachable_pools_hold_one_request_witness :
  reachable Scenario.afterRequest1 /\
  In (mkPoolMatch "pool_1" [Scenario.request1]
        [point_of_location Scenario.pickupA; point_of_location Scenario.dropoffA]
        (calculateDistance Scenario.pickupA Scenario.dropoffA) 30 100 0)
     (getActivePools Scenario.afterRequest1) /\
  getPool Scenario.afterRequest1 "pool_1" =
    Some (mkPoolMatch "pool_1" [Scenario.request1]
            [point_of_location Scenario.pickupA; point_of_location Scenario.dropoffA]
            (calculateDistance Scenario.pickupA Scenario.dropoffA) 30 100 0).
Proof.
  assert (Hin :
    In (mkPoolMatch "pool_1" [Scenario.request1]
          [point_of_location Scenario.pickupA; point_of_location Scenario.dropoffA]
          (calculateDistance Scenario.pickupA Scenario.dropoffA) 30 100 0)
       (getActivePools Scenario.afterRequest1)).
  { unfold getActivePools. rewrite afterRequest1_pools. now left. }
  split; [exact afterRequest1_reachable|]. split; [exact Hin|].
  exact (proj1 (reachable_pools_hold_one_request _ _ afterRequest1_reachable Hin)).
Defined.

Lemma add_then_remove_restores_the_pools_witness :
  unknownRequest Scenario.afterRequest1 (id Scenario.request2) /\
  getPool Scenario.afterRequest1 "pool_2" = None /\
  pools (removeFromPool
           (snd (addPoolRequest Scenario.afterRequest1 "pool_2" Scenario.request2))
           (id Scenario.request2)) =
    pools Scenario.afterRequest1.
Proof.
  assert (Hfresh : getPool Scenario.afterRequest1 "pool_2" = None).
  { unfold getPool. rewrite afterRequest1_pools. reflexivity. }
  split; [exact afterRequest1_unknown_req_2|]. split; [exact Hfresh|].
  exact (proj1 (add_then_remove_restores_the_pools _ _ _
                  afterRequest1_unknown_req_2 Hfresh)).
Defined.

Lemma removal_touches_one_pool_witness :
  findPoolOf "req_1" (pools Scenario.afterRequest1) =
    Some ("pool_1"%string,
          mkPoolMatch "pool_1" [Scenario.request1]
            [point_of_location Scenario.pickupA; point_of_location Scenario.dropoffA]
            (calculateDistance Scenario.pickupA Scenario.dropoffA) 30 100 0,
          0%nat) /\
  map_get "req_1" (activeRequests (removeFromPool Scenario.afterRequest1 "req_1")) =
    None.
Proof.
  split; [exact afterRequest1_finds_req_1|].
  exact (proj2 (proj2 (proj2 (proj2
           (removal_touches_one_pool _ _ _ _ _ afterRequest1_finds_req_1))))).
Defined.

Lemma removal_takes_one_request_witness :
  uniquePoolIds Scenario.afterRequest1 /\
  In "req_1"%string (pooledRequestIds Scenario.afterRequest1) /\
  S (pooledCount (removeFromPool Scenario.afterRequest1 "req_1")) =
    pooledCount Scenario.afterRequest1.
Proof.
  assert (Hkeys : uniquePoolIds Scenario.afterRequest1)
    by (apply reachable_uniquePoolIds, afterRequest1_reachable).
  assert (Hheld : In "req_1"%string (pooledRequestIds Scenario.afterRequest1)).
  { unfold pooledRequestIds. rewrite afterRequest1_pools. now left. }
  split; [exact Hkeys|]. split; [exact Hheld|].
  exact (proj1 (removal_takes_one_request _ "req_1"%string Hkeys) Hheld).
Defined.

Lemma distinct_identifiers_are_kept_witness :
  uniquePoolIds Scenario.afterRequest1 /\
  uniqueRequestIds Scenario.afterRequest1 /\
  unknownRequest Scenario.afterRequest1 (id Scenario.request2) /\
  uniquePoolIds
    (perform Scenario.afterRequest1 (AddRequest "pool_2" Scenario.request2)) /\
  uniqueRequestIds
    (perform Scenario.afterRequest1 (AddRequest "pool_2" Scenario.request2)).
Proof.
  assert (Hkeys : uniquePoolIds Scenario.afterRequest1)
    by (apply reachable_uniquePoolIds, afterRequest1_reachable).
  split; [exact Hkeys|]. split; [exact afterRequest1_uniqueRequestIds|].
  split; [exact afterRequest1_unknown_req_2|].
  exact (distinct_identifiers_are_kept Scenario.afterRequest1
           (AddRequest "pool_2" Scenario.request2) Hkeys
           afterRequest1_uniqueRequestIds afterRequest1_unknown_req_2).
Defined.

Lemma removal_is_idempotent_witness :
  uniquePoolIds Scenario.afterRequest1 /\
  uniqueRequestIds Scenario.afterRequest1 /\
  unknownRequest (removeFromPool Scenario.afterRequest1 "req_1") "req_1" /\
  pools (removeFromPool (removeFromPool Scenario.afterRequest1 "req_1") "req_1") =
    pools (removeFromPool Scenario.afterRequest1 "req_1").
Proof.
  assert (Hkeys : uniquePoolIds Scenario.afterRequest1)
    by (apply reachable_uniquePoolIds, afterRequest1_reachable).
  split; [exact Hkeys|]. split; [exact afterRequest1_uniqueRequestIds|].
  exact (removal_is_idempotent Scenario.afterRequest1 "req_1"%string Hkeys
           afterRequest1_uniqueRequestIds).
Defined.

Lemma created_request_is_well_formed_witness :
  randomDraw 0 /\ randomDraw 0.25 /\ randomDraw 0.5 /\ randomDraw 0.75 /\
  Spec.validRequest
    (createPoolRequest Trips.bareForm "req_1" 1000 0 0.25 0.5 0.75) /\
  customerId (createPoolRequest Trips.bareForm "req_1" 1000 0 0.25 0.5 0.75) <>
    ""%string /\
  packageWeight (createPoolRequest Trips.bareForm "req_1" 1000 0 0.25 0.5 0.75) <> 0.
Proof.
  assert (H1 : randomDraw 0) by (unfold randomDraw; lra).
  assert (H2 : randomDraw 0.25) by (unfold randomDraw; lra).
  assert (H3 : randomDraw 0.5) by (unfold randomDraw; lra).
  assert (H4 : randomDraw 0.75) by (unfold randomDraw; lra).
  split; [exact H1|]. split; [exact H2|]. split; [exact H3|]. split; [exact H4|].
  destruct (created_request_is_well_formed Trips.bareForm "req_1" 1000
              0 0.25 0.5 0.75 H1 H2 H3 H4)
    as (Hvalid & _ & _ & Hcustomer & Hweight & _).
  split; [exact Hvalid|]. split; [exact Hcustomer | exact Hweight].
Defined.

Lemma savings_after_removal_witness :
  exists joined shrunk,
    findPoolOf "req_3" (pools Scenario.onePoolOfThree) =
      Some ("pool_1"%string, joined, 2%nat) /\
    removeAt 2 (requests joined) <> [] /\
    getPool (removeFromPool Scenario.onePoolOfThree "req_3") "pool_1" =
      Some shrunk /\
    requests shrunk = [Scenario.request1; Scenario.request2] /\
    savings shrunk =
      Spec.sumSoloCost (requests shrunk) - totalDistance shrunk * 10.
Proof.
  destruct onePoolOfThree_pools as (joined & Hpools & Hreq).
  assert (Hfind : findPoolOf "req_3" (pools Scenario.onePoolOfThree) =
                  Some ("pool_1"%string, joined, 2%nat)).
  { rewrite Hpools. cbn [findPoolOf]. rewrite Hreq. reflexivity. }
  assert (Hrest : removeAt 2 (requests joined) <> [])
    by (rewrite Hreq; discriminate).
  destruct (savings_after_removal Scenario.onePoolOfThree "req_3"%string
              "pool_1"%string joined 2%nat Hfind Hrest)
    as (shrunk & Hget & Hshrunk & Hsavings).
  assert (Hmembers : requests shrunk = [Scenario.request1; Scenario.request2])
    by (rewrite Hshrunk, Hreq; reflexivity).
  rewrite Hmembers in Hsavings at 1. cbn [length Nat.eqb] in Hsavings.
  exists joined, shrunk. repeat split; assumption.
Defined.

(** ** Further properties: the cost of a join, nearby points, scores of numbers *)

(** X23.  [addToExistingPool], on a pool of the registry, appends the request
    to its members and sets the cost per customer to
    (50 + (totalDistance + 2) * 10) / (members + 1), where [totalDistance]
    and [members] are those of the pool with the request in it:
    [calculatePoolCost] adds 2 km and one member to the pool it is given.
    For a pool that had one member this is not (50 + totalDistance * 10) / 2. *)
Theorem join_cost_counts_one_more_member (this : PoolingService) (poolId : string)
    (pool : PoolMatch) (request : PoolRequest) :
  getPool this poolId = Some pool ->
  exists joined,
    getPool (snd (addToExistingPool this poolId request)) poolId = Some joined /\
    requests joined = requests pool ++ [request] /\
    totalDistance joined = calculateTotalDistance (optimizeRoute (requests joined)) /\
    costPerCustomer joined =
      (50 + (totalDistance joined + 2) * 10) / INR (length (requests joined) + 1) /\
    (length (requests pool) = 1%nat ->
     costPerCustomer joined <>
       (50 + totalDistance joined * 10) / INR (length (requests joined))).
Proof.
  intros Hget.
  destruct (addToExistingPool_joined this poolId pool request Hget)
    as [_ (joined & Hjoined & Hreq & Hroute & Hdist & _ & Hcost & _)].
  exists joined. split; [exact Hjoined|]. split; [exact Hreq|].
  split; [now rewrite <- Hroute|]. split; [exact Hcost|].
  intros Hone.
  assert (Hlen : length (requests joined) = 2%nat)
    by (rewrite Hreq, length_app, Hone; reflexivity).
  pose proof (calculateTotalDistance_nonneg (route joined)) as Hd.
  rewrite <- Hdist in Hd. rewrite Hcost, Hlen. simpl INR. lra.
Qed.

Lemma join_cost_counts_one_more_member_witness :
  getPool Scenario.afterRequest1 "pool_1" =
    Some (mkPoolMatch "pool_1" [Scenario.request1]
            [point_of_location Scenario.pickupA; point_of_location Scenario.dropoffA]
            (calculateDistance Scenario.pickupA Scenario.dropoffA) 30 100 0) /\
  exists joined,
    getPool (snd (addToExistingPool Scenario.afterRequest1 "pool_1" Scenario.request2))
      "pool_1" = Some joined /\
    requests joined = [Scenario.request1; Scenario.request2] /\
    costPerCustomer joined = (50 + (totalDistance joined + 2) * 10) / 3 /\
    costPerCustomer joined <> (50 + totalDistance joined * 10) / 2.
Proof.
  assert (Hget : getPool Scenario.afterRequest1 "pool_1" =
            Some (mkPoolMatch "pool_1" [Scenario.request1]
                    [point_of_location Scenario.pickupA;
                     point_of_location Scenario.dropoffA]
                    (calculateDistance Scenario.pickupA Scenario.dropoffA)
                    30 100 0)).
  { unfold getPool. rewrite afterRequest1_pools. reflexivity. }
  split; [exact Hget|].
  destruct (join_cost_counts_one_more_member Scenario.afterRequest1 "pool_1"
              _ Scenario.request2 Hget)
    as (joined & Hjoined & Hreq & _ & Hcost & Hne).
  cbn [requests app] in Hreq. specialize (Hne eq_refl).
  rewrite Hreq in Hcost, Hne. cbn [length Nat.add] in Hcost, Hne.
  exists joined. split; [exact Hjoined|]. split; [exact Hreq|]. split.
  - rewrite Hcost. simpl INR. lra.
  - intros Heq. apply Hne. rewrite Heq. simpl INR. lra.
Defined.



Lemma requestScore_of_numbers (member request : PoolRequest) :
  0 <= calculateDistance (pickup member) (pickup request) ->
  0 <= calculateDistance (dropoff member) (dropoff request) ->
  requestScore member request <= 1.
Proof.
  intros Hp Hd. unfold requestScore. cbv zeta.
  assert (Hps := max0_range
            (1 - calculateDistance (pickup member) (pickup request) / 5)).
  assert (Hds := max0_range
            (1 - calculateDistance (dropoff member) (dropoff request) / 5)).
  pose proof (calculateDirectionSimilarity_range member request) as Hdir.
  lra.
Qed.


